(** * GraphWar / GreatX: the backdoor attacker, the targeted structure
    attacker and the CKA diagnostic.

    The development follows three places of the repository:
    - [graphwar/attack/backdoor/backdoor_attacker.py]: the class
      [BackdoorAttacker] with its methods [reset], [attack], [trigger], [g];
    - the targeted structure attacker driven by
      [examples/attack/targeted/gf_attack.py];
    - [graphwar/utils/cka.py]: [CKA._HSIC] and the pass of [CKA.compare]
      that calls it.

    Python objects live in a store: graph objects and attacker objects are
    addressed by locations, methods receive [self] as a location and run in
    a state-and-exception monad over the store. *)

From Stdlib Require Import ZArith QArith Qround List Lia Ascii.
From stdpp Require Import gmap list sorting strings.

Local Open Scope nat_scope.

(** ** Exceptions and results *)

Inductive exn : Type :=
| RuntimeError_not_reset   (* attack(): raise RuntimeError('Before calling attack, ...') *)
| RuntimeError_overflow    (* torch.LongTensor([x]) with x outside int64 *)
| RuntimeError_shape       (* torch: an operation on incompatible shapes *)
| AttributeError           (* attribute access on None *)
| NameError                (* a reference that designates no object *)
| DGLError                 (* DGL: feature scheme mismatch *)
| AssertionError            (* a failed assert statement *)
| ZeroDivisionError         (* Python: division of a number by the int 0 *)
| NotFinite                 (* torch: a tensor divided by 0, which gives inf or nan *)
| BudgetExceeded
| EmptyBudget
| InvalidNodeId.

(** The lifecycle violation of the design's taxonomy is the [RuntimeError]
    raised by [attack] on a session that was not reset. *)
Definition NotReadyError : exn := RuntimeError_not_reset.

Inductive result (A : Type) : Type :=
| OK (a : A)
| Err (e : exn).
Arguments OK {A} a.
Arguments Err {A} e.

Definition is_OK {A} (r : result A) : bool :=
  match r with OK _ => true | Err _ => false end.

Global Instance exn_eq_dec : EqDecision exn.
Proof. solve_decision. Defined.

(** ** The store *)

Abbreviation loc := positive.

(** Feature entries are floats on which the attacker never computes;
    rationals stand for them. *)
Abbreviation scalar := Q.

(** A DGL graph object, as far as [g] observes it: the number of nodes, the
    edges in insertion order as (source, destination) pairs, and the node
    frame's column [_FEATURE] with its scheme (the width of a row). *)
Record DGLGraph : Type := mkDGLGraph {
  g_num_nodes : nat;
  g_edges : list (nat * nat);
  g_scheme : nat;
  g_FEATURE : list (list scalar)
}.

(** The attributes of a [BackdoorAttacker] object. [None] in an optional
    attribute is Python's [None] (or an attribute not bound yet: reading
    either and using it raises [AttributeError]). *)
Record BackdoorAttacker : Type := mkBackdoorAttacker {
  graph : loc;
  num_nodes : nat;
  num_feats : nat;
  num_budgets : option Z;
  _trigger : option (list scalar);
  targets_class : option (list Z);
  is_reseted : bool
}.

Record world : Type := mkWorld {
  graphs : gmap loc DGLGraph;
  sessions : gmap loc BackdoorAttacker
}.

Definition set_graphs (f : gmap loc DGLGraph → gmap loc DGLGraph) (w : world) : world :=
  {| graphs := f (graphs w); sessions := sessions w |}.

Definition set_sessions (f : gmap loc BackdoorAttacker → gmap loc BackdoorAttacker)
    (w : world) : world :=
  {| graphs := graphs w; sessions := f (sessions w) |}.

(** ** The monad: a computation threads the store and either returns or
    raises; the store reached when an exception is raised is kept. *)

Definition M (A : Type) : Type := world → world * result A.

Definition ret {A} (a : A) : M A := λ w, (w, OK a).
Definition raise {A} (e : exn) : M A := λ w, (w, Err e).
Definition bind {A B} (m : M A) (k : A → M B) : M B :=
  λ w, match m w with
       | (w', OK a) => k a w'
       | (w', Err e) => (w', Err e)
       end.
Definition lift {A} (r : result A) : M A := λ w, (w, r).

Declare Scope py_scope.
Delimit Scope py_scope with py.
Notation "x <- m ;; k" := (bind m (λ x, k))
  (at level 100, m at next level, right associativity) : py_scope.
Notation "m ;;; k" := (bind m (λ _, k))
  (at level 100, right associativity) : py_scope.
Local Open Scope py_scope.

(** Attribute access on an attacker object. *)
Definition getattr {A} (self : loc) (field : BackdoorAttacker → A) : M A :=
  λ w, match sessions w !! self with
       | Some a => (w, OK (field a))
       | None => (w, Err NameError)
       end.

Definition setattr (self : loc) (upd : BackdoorAttacker → BackdoorAttacker) : M unit :=
  λ w, match sessions w !! self with
       | Some a => (set_sessions <[self := upd a]> w, OK tt)
       | None => (w, Err NameError)
       end.

Definition with_num_budgets (v : option Z) (a : BackdoorAttacker) : BackdoorAttacker :=
  mkBackdoorAttacker (graph a) (num_nodes a) (num_feats a) v (_trigger a)
    (targets_class a) (is_reseted a).
Definition with_trigger (v : option (list scalar)) (a : BackdoorAttacker) : BackdoorAttacker :=
  mkBackdoorAttacker (graph a) (num_nodes a) (num_feats a) (num_budgets a) v
    (targets_class a) (is_reseted a).
Definition with_targets_class (v : option (list Z)) (a : BackdoorAttacker) : BackdoorAttacker :=
  mkBackdoorAttacker (graph a) (num_nodes a) (num_feats a) (num_budgets a) (_trigger a)
    v (is_reseted a).
Definition with_is_reseted (v : bool) (a : BackdoorAttacker) : BackdoorAttacker :=
  mkBackdoorAttacker (graph a) (num_nodes a) (num_feats a) (num_budgets a) (_trigger a)
    (targets_class a) v.

(** ** The library operations [g] relies on *)

(** torch: [t.view(1, -1)] reshapes a tensor to one row holding all its
    elements; the free dimension is the number of elements, so that a tensor
    without elements becomes a row of width 0. *)
Definition view_1_m1 (t : list scalar) : result (list (list scalar)) :=
  OK [t].

(** torch: [torch.LongTensor([x]).view(-1)], a one-element int64 tensor. *)
Definition LongTensor1 (x : Z) : result (list Z) :=
  if ((- 2 ^ 63 <=? x) && (x <? 2 ^ 63))%Z then OK [x] else Err RuntimeError_overflow.

Definition deref_graph (gr : loc) : M DGLGraph :=
  λ w, match graphs w !! gr with
       | Some G => (w, OK G)
       | None => (w, Err NameError)
       end.

Definition store_graph (gr : loc) (G : DGLGraph) : M unit :=
  λ w, (set_graphs <[gr := G]> w, OK tt).

(** DGL: [graph.local_var()] returns a new graph object over the same
    structure and a clone of the node frame; mutating the new object is not
    seen through the old one. *)
Definition local_var (gr : loc) : M loc :=
  G <- deref_graph gr ;;
  λ w, let l := fresh (dom (graphs w)) in (set_graphs <[l := G]> w, OK l).

(** DGL: [graph.add_nodes(num, data)] updates the graph object in place.
    Without [data] the new rows are filled by the zero initializer; with
    [data] the rows must match the column's scheme. *)
Definition add_nodes (gr : loc) (num : nat) (data : option (list (list scalar))) : M unit :=
  G <- deref_graph gr ;;
  if num =? 0 then ret tt
  else
    rows <- lift match data with
                 | None => OK (replicate num (replicate (g_scheme G) 0%Q))
                 | Some d =>
                     if (length d =? num) && forallb (λ r, length r =? g_scheme G) d
                     then OK d else Err DGLError
                 end ;;
    store_graph gr
      (mkDGLGraph (g_num_nodes G + num) (g_edges G) (g_scheme G) (g_FEATURE G ++ rows)).

(** DGL: [graph.add_edges(u, v)] for two node ids; an end node that does
    not exist yet is created first, through [add_nodes]. *)
Definition add_edges (gr : loc) (u v : nat) : M unit :=
  G <- deref_graph gr ;;
  (if g_num_nodes G <? S (max u v)
   then add_nodes gr (S (max u v) - g_num_nodes G) None
   else ret tt) ;;;
  G <- deref_graph gr ;;
  store_graph gr
    (mkDGLGraph (g_num_nodes G) (g_edges G ++ [(u, v)]) (g_scheme G) (g_FEATURE G)).

(** ** [BackdoorAttacker] *)

(** [num_budgets: Union[int, float]]; a float budget is read as a rational. *)
Inductive budget : Type :=
| IntBudget (n : Z)
| FloatBudget (q : Q).

Section BackdoorAttacker.

(** [Attacker._check_budget] belongs to the base class, which is outside
    the sources at hand: the methods below take it as a parameter, a
    validator that returns the budget to store or raises. *)
Variable _check_budget : budget → nat → result Z.

Definition reset (self : loc) : M loc :=
  setattr self (with_num_budgets None) ;;;
  setattr self (with_trigger None) ;;;
  setattr self (with_is_reseted true) ;;;
  ret self.

Definition attack (self : loc) (num_budgets : budget) (targets_class : Z) : M loc :=
  r <- getattr self is_reseted ;;
  if negb r then raise RuntimeError_not_reset
  else
    max_perturbations <- getattr self num_feats ;;
    num_budgets <- lift (_check_budget num_budgets max_perturbations) ;;
    setattr self (with_num_budgets (Some num_budgets)) ;;;
    tc <- lift (LongTensor1 targets_class) ;;
    setattr self (with_targets_class (Some tc)) ;;;
    setattr self (with_is_reseted false) ;;;
    ret self.

Definition trigger (self : loc) : M (option (list scalar)) :=
  getattr self _trigger.

Definition g (self : loc) (target_node : nat) (symmetric : bool) : M loc :=
  gr <- getattr self graph ;;
  graph <- local_var gr ;;
  num_nodes <- getattr self num_nodes ;;
  t <- trigger self ;;
  data <- match t with
          | None => raise AttributeError
          | Some t => lift (view_1_m1 t)
          end ;;
  add_nodes graph 1 (Some data) ;;;
  add_edges graph num_nodes target_node ;;;
  (if symmetric then add_edges graph target_node num_nodes else ret tt) ;;;
  add_edges graph num_nodes num_nodes ;;;
  ret graph.

(** *** Call sequences

    A caller drives sessions through method calls and goes on after an
    exception. The trigger is produced outside [BackdoorAttacker] (by the
    subclass's optimisation) and written to [self._trigger]:
    [Store_trigger] is that write. *)

Inductive call : Type :=
| Call_reset (self : loc)
| Call_attack (self : loc) (num_budgets : budget) (targets_class : Z)
| Call_trigger (self : loc)
| Call_g (self : loc) (target_node : nat) (symmetric : bool)
| Store_trigger (self : loc) (t : list scalar).

Inductive value : Type :=
| VRef (l : loc)
| VTensor (t : option (list scalar))
| VNone.

Definition exec (c : call) : M value :=
  match c with
  | Call_reset self => r <- reset self ;; ret (VRef r)
  | Call_attack self b tc => r <- attack self b tc ;; ret (VRef r)
  | Call_trigger self => t <- trigger self ;; ret (VTensor t)
  | Call_g self target sym => r <- g self target sym ;; ret (VRef r)
  | Store_trigger self t => setattr self (with_trigger (Some t)) ;;; ret VNone
  end.

Fixpoint run (cs : list call) (w : world) : world * list (result value) :=
  match cs with
  | [] => (w, [])
  | c :: cs =>
      let (w1, r) := exec c w in
      let (w2, rs) := run cs w1 in
      (w2, r :: rs)
  end.

End BackdoorAttacker.

(** The number a budget stands for. *)
Definition budget_value (b : budget) : Q :=
  match b with
  | IntBudget n => inject_Z n
  | FloatBudget q => q
  end.

(** Modelled from the spec: [Attacker._check_budget], the budget validation
    of the base class, which is not among the sources. A request that
    exceeds the maximum is rejected with [BudgetExceeded]. Otherwise an
    integer budget is taken as it is, and a fraction of the eligible count is
    resolved to the nearest integer, never above the eligible count; a
    fraction that resolves to 0 is rejected with [EmptyBudget]. *)
Definition _check_budget (num_budgets : budget) (max_perturbations : nat) : result Z :=
  let max_budget := Z.of_nat max_perturbations in
  if Qle_bool (budget_value num_budgets) (inject_Z max_budget) then
    match num_budgets with
    | IntBudget n => OK n
    | FloatBudget q =>
        let resolved := Z.min (Qfloor (q * inject_Z max_budget + (1 # 2))%Q) max_budget in
        if (resolved <=? 0)%Z then Err EmptyBudget else OK resolved
    end
  else Err BudgetExceeded.

Module Examples.

Definition G0 : DGLGraph :=
  mkDGLGraph 3 [(0, 1); (1, 0); (1, 2); (2, 1)] 2
    [[1; 0]; [0; 1]; [1; 1]]%Q.

Definition A0 : BackdoorAttacker :=
  mkBackdoorAttacker 1%positive 3 2 None None None false.

Definition w0 : world := mkWorld {[ 1%positive := G0 ]} {[ 1%positive := A0 ]}.

End Examples.

(** ** Predicates used to state the properties *)

(** A computation that writes to no attacker object and to no graph object
    other than [l]. *)
Definition touches_only {A} (l : loc) (m : M A) : Prop :=
  ∀ w, sessions (m w).1 = sessions w
       ∧ ∀ l', l' ≠ l → graphs (m w).1 !! l' = graphs w !! l'.

(** The invariant of the data model on a graph object: one feature row per
    node, every row of the scheme's width, edge end points among the nodes. *)
Definition wf_graph (G : DGLGraph) : Prop :=
  length (g_FEATURE G) = g_num_nodes G
  ∧ Forall (λ r, length r = g_scheme G) (g_FEATURE G)
  ∧ Forall (λ e, e.1 < g_num_nodes G ∧ e.2 < g_num_nodes G) (g_edges G).

Global Instance wf_graph_dec G : Decision (wf_graph G).
Proof. unfold wf_graph. apply _. Defined.

(** The graph that [g] builds from the session's graph [G]. *)
Definition spliced (G : DGLGraph) (t : list scalar) (target_node : nat) (symmetric : bool)
    : DGLGraph :=
  let n := g_num_nodes G in
  mkDGLGraph (n + 1)
    (g_edges G ++ (n, target_node)
       :: (if symmetric then [(target_node, n)] else []) ++ [(n, n)])
    (g_scheme G)
    (g_FEATURE G ++ [t]).

(** [preserves R m]: running [m] takes every store to an [R]-related one,
    whether [m] returns or raises. *)
Definition preserves (R : relation world) {A} (m : M A) : Prop :=
  ∀ w, R w (m w).1.

(** [w'] extends [w] on graphs: every graph object of [w] is in [w'] with the
    same content, and every attacker object of [w] still refers to the same
    graph object. *)
Definition keeps_inputs (w w' : world) : Prop :=
  graphs w ⊆ graphs w'
  ∧ ∀ self a, sessions w !! self = Some a →
      ∃ a', sessions w' !! self = Some a' ∧ graph a' = graph a.

Global Instance keeps_inputs_preorder : PreOrder keeps_inputs.
Proof.
  split.
  - intros w. split; [done|]. eauto.
  - intros w1 w2 w3 [Hg1 Hs1] [Hg2 Hs2]. split; [by etransitivity|].
    intros self a Ha. destruct (Hs1 _ _ Ha) as (a' & Ha' & Hgr).
    destruct (Hs2 _ _ Ha') as (a'' & Ha'' & Hgr'). exists a''. split; [done|congruence].
Qed.

(** The session [self] exists and is not reset. *)
Definition unreset (self : loc) (w : world) : Prop :=
  ∃ a, sessions w !! self = Some a ∧ is_reseted a = false.

Definition stays_unreset (self : loc) (w w' : world) : Prop :=
  unreset self w → unreset self w'.

Global Instance stays_unreset_preorder self : PreOrder (stays_unreset self).
Proof. split; unfold stays_unreset; [intros w|intros w1 w2 w3]; auto. Qed.

Global Instance Q_eq_dec : EqDecision Q.
Proof. solve_decision. Defined.
Global Instance budget_eq_dec : EqDecision budget.
Proof. solve_decision. Defined.
Global Instance call_eq_dec : EqDecision call.
Proof. solve_decision. Defined.

(** The session a call is made on. *)
Definition call_self (c : call) : loc :=
  match c with
  | Call_reset self | Call_attack self _ _ | Call_trigger self
  | Call_g self _ _ | Store_trigger self _ => self
  end.

(** The session [self] refers to a graph object that satisfies the data
    model, and its [num_nodes] and [num_feats] are those of that graph (the
    base-class constructor reads them off the graph). *)
Definition session_ok (w : world) (self : loc) : Prop :=
  ∃ a G, sessions w !! self = Some a
         ∧ graphs w !! graph a = Some G
         ∧ wf_graph G
         ∧ num_nodes a = g_num_nodes G
         ∧ num_feats a = g_scheme G.

(** [w'] keeps the graph objects of [w] and, in every attacker object, the
    attributes that no method assigns. *)
Definition keeps_shape (w w' : world) : Prop :=
  graphs w ⊆ graphs w'
  ∧ ∀ self a, sessions w !! self = Some a →
      ∃ a', sessions w' !! self = Some a'
            ∧ graph a' = graph a
            ∧ num_nodes a' = num_nodes a
            ∧ num_feats a' = num_feats a.

Global Instance keeps_shape_preorder : PreOrder keeps_shape.
Proof.
  split.
  - intros w. split; [done|]. eauto.
  - intros w1 w2 w3 [Hg1 Hs1] [Hg2 Hs2]. split; [by etransitivity|].
    intros self a Ha. destruct (Hs1 _ _ Ha) as (a' & Ha' & ? & ? & ?).
    destruct (Hs2 _ _ Ha') as (a'' & Ha'' & ? & ? & ?). exists a''.
    repeat split; [done|congruence..].
Qed.

(** The attacker object [self] is the same in [w'] as in [w]. *)
Definition same_session (self : loc) (w w' : world) : Prop :=
  sessions w' !! self = sessions w !! self.

Global Instance same_session_preorder self : PreOrder (same_session self).
Proof.
  split; unfold same_session; [intros w|intros w1 w2 w3]; [done|congruence].
Qed.

(** * The targeted structure attacker *)

Module Targeted.

(** The targeted structure attacker ([GFAttack] and its base class) is not
    among the sources, which hold only its driver script
    [examples/attack/targeted/gf_attack.py]
    ([attacker.reset(); attacker.attack(target)]). The graph state, the
    budget ledger, the session lifecycle and the attack loop below follow the
    design's sections 3 and 4.1 to 4.4. *)

(** Modelled from the spec: the graph state of the targeted attacker (its
    class is not among the sources), a node count and a set of edges. *)
Record Graph : Type := mkGraph {
  num_nodes : nat;
  edges : gset (nat * nat)
}.

Definition in_range (u v : nat) (G : Graph) : bool :=
  (u <? num_nodes G) && (v <? num_nodes G).

(** Modelled from the spec: [GraphState.add_edge] (not among the sources)
    does nothing when the edge is present already and fails with
    [InvalidNodeId] on a node out of range. *)
Definition add_edge (u v : nat) (G : Graph) : result Graph :=
  if in_range u v G then OK (mkGraph (num_nodes G) ({[(u, v)]} ∪ edges G))
  else Err InvalidNodeId.

(** Modelled from the spec: [GraphState.remove_edge] (not among the
    sources) does nothing when the edge is absent already and fails with
    [InvalidNodeId] on a node out of range. *)
Definition remove_edge (u v : nat) (G : Graph) : result Graph :=
  if in_range u v G then OK (mkGraph (num_nodes G) (edges G ∖ {[(u, v)]}))
  else Err InvalidNodeId.

(** Modelled from the spec: the budget ledger (not among the sources), a
    maximum and the count spent against it. *)
Record BudgetLedger : Type := mkLedger {
  max_budget : nat;
  spent : nat
}.

(** Modelled from the spec: [BudgetLedger.reserve] (not among the sources):
    [reserve(n)] fails with [BudgetExceeded] if [spent + n > max_budget],
    otherwise commits. *)
Definition reserve (n : nat) (L : BudgetLedger) : result BudgetLedger :=
  if max_budget L <? spent L + n then Err BudgetExceeded
  else OK (mkLedger (max_budget L) (spent L + n)).

(** Modelled from the spec: the lifecycle states of a session. *)
Inductive status : Type := Unreset | Ready | InProgress | Done.

(** Modelled from the spec: the attack session (not among the sources). It
    owns the working copy [graph] of the input graph [input], the ledger, and
    the flips committed by the last attack, in order. *)
Record AttackSession : Type := mkSession {
  input : Graph;
  graph : Graph;
  ledger : BudgetLedger;
  state : status;
  perturbations : list (nat * nat)
}.

(** Modelled from the spec: a session starts [Unreset] on its input graph. *)
Definition new_session (G : Graph) : AttackSession :=
  mkSession G G (mkLedger 0 0) Unreset [].

(** Modelled from the spec: [reset()] (not among the sources) clones the
    input graph, zeroes the ledger, clears the flips and makes the session
    [Ready]. *)
Definition reset (s : AttackSession) : AttackSession :=
  mkSession (input s) (input s) (mkLedger 0 0) Ready [].

Section Attack.

(** The approximate influence score of flipping the candidate edge
    [(t, v)] in [G], obtained from the rank-[T] decomposition of the
    graph operator: a numerical computation, left as a parameter. *)
Variable score : Graph → nat → nat → Q.

(** Modelled from the spec: the eligible candidates of the targeted attack
    (not among the sources). Self-loops are no candidates; every other node
    gives one candidate edge, for removal if the edge is present and for
    addition if not. *)
Definition eligible (G : Graph) (t : nat) : list nat :=
  filter (λ v, v ≠ t) (seq 0 (num_nodes G)).

(** Modelled from the spec: the ranking of the targeted attack (not among
    the sources): score descending, ties broken by the lower node id. *)
Definition ranks_before (G : Graph) (t v1 v2 : nat) : bool :=
  match Qcompare (score G t v1) (score G t v2) with
  | Gt => true
  | Eq => v1 <=? v2
  | Lt => false
  end.

Definition ranked (G : Graph) (t : nat) : relation nat :=
  λ v1 v2, ranks_before G t v1 v2 = true.

Global Instance ranked_dec G t : RelDecision (ranked G t).
Proof. intros v1 v2. unfold ranked. apply _. Defined.

(** Modelled from the spec: step 3 of the targeted attack (not among the
    sources), the candidates sorted by the ranking. *)
Definition rank (G : Graph) (t : nat) (candidates : list nat) : list nat :=
  merge_sort (ranked G t) candidates.

(** Modelled from the spec: committing a candidate (not among the sources)
    removes the edge if it is present and adds it if not. *)
Definition flip_edge (t v : nat) (G : Graph) : result Graph :=
  if bool_decide ((t, v) ∈ edges G) then remove_edge t v G else add_edge t v G.

(** Modelled from the spec: the greedy loop of the targeted attack (not
    among the sources): before each commit the ledger is asked for one unit;
    a rejection by the ledger stops the loop. *)
Fixpoint commit (t : nat) (candidates : list nat)
    (G : Graph) (L : BudgetLedger) (flips : list (nat * nat))
    : result (Graph * BudgetLedger * list (nat * nat)) :=
  match candidates with
  | [] => OK (G, L, flips)
  | v :: candidates =>
      match reserve 1 L with
      | Err _ => OK (G, L, flips)
      | OK L' =>
          match flip_edge t v G with
          | Err e => Err e
          | OK G' => commit t candidates G' L' (flips ++ [(t, v)])
          end
      end
  end.

(** Modelled from the spec: [attack] of the targeted attacker (not among
    the sources), for a target [t] and a budget [B]: only from [Ready]; the
    ledger is bound to the budget [B]; the top [B] ranked candidates are
    committed; the session ends [Done]. *)
Definition attack (s : AttackSession) (t B : nat) : result AttackSession :=
  match state s with
  | Ready =>
      if t <? num_nodes (graph s) then
        let top := take B (rank (graph s) t (eligible (graph s) t)) in
        match commit t top (graph s) (mkLedger B 0) [] with
        | OK (G', L', flips) => OK (mkSession (input s) G' L' Done flips)
        | Err e => Err e
        end
      else Err InvalidNodeId
  | _ => Err NotReadyError
  end.

End Attack.

(** The edge set after flipping the edges of a list one after the other. *)
Definition toggled (E : gset (nat * nat)) (flips : list (nat * nat)) : gset (nat * nat) :=
  foldl (λ E e, if bool_decide (e ∈ E) then E ∖ {[e]} else {[e]} ∪ E) E flips.

Module Examples.

(** A path 0 - 1 - 2 - 3 stored as mirrored pairs. *)
Definition P4 : Graph :=
  mkGraph 4 (list_to_set [(0, 1); (1, 0); (1, 2); (2, 1); (2, 3); (3, 2)]).

(** A score that prefers higher node ids. *)
Definition by_id (G : Graph) (t v : nat) : Q := inject_Z (Z.of_nat v).

End Examples.

End Targeted.

(** * The CKA diagnostic: [CKA._HSIC] and [CKA.compare] *)

Module CKA.

(** Results without a store: [_HSIC] touches no attribute but [device]. *)
Definition rbind {A B} (r : result A) (k : A → result B) : result B :=
  match r with
  | OK a => k a
  | Err e => Err e
  end.

Declare Scope res_scope.
Delimit Scope res_scope with res.
Notation "x <- m ;; k" := (rbind m (λ x, k))
  (at level 100, m at next level, right associativity) : res_scope.
Notation "m ;;; k" := (rbind m (λ _, k))
  (at level 100, right associativity) : res_scope.
Local Open Scope res_scope.

(** A 2-D tensor: its shape and its entries, with exact rationals in place
    of floats. *)
Record Tensor : Type := mkTensor {
  shape0 : nat;
  shape1 : nat;
  entry : nat → nat → Q
}.

Fixpoint sum_upto (n : nat) (f : nat → Q) : Q :=
  match n with
  | O => 0
  | S n => sum_upto n f + f n
  end.

(** [torch.ones(r, c)] *)
Definition ones (r c : nat) : Tensor := mkTensor r c (λ _ _, 1%Q).

(** [A.t()] *)
Definition t (A : Tensor) : Tensor :=
  mkTensor (shape1 A) (shape0 A) (λ i j, entry A j i).

(** [A @ B]; torch raises on shapes that do not agree. *)
Definition matmul (A B : Tensor) : result Tensor :=
  if shape1 A =? shape0 B then
    OK (mkTensor (shape0 A) (shape1 B)
          (λ i j, sum_upto (shape1 A) (λ k, entry A i k * entry B k j)%Q))
  else Err RuntimeError_shape.

(** [torch.trace(A)] *)
Definition trace (A : Tensor) : Q :=
  sum_upto (min (shape0 A) (shape1 A)) (λ i, entry A i i).

(** [A.item()]: the value of a tensor with one element. *)
Definition item (A : Tensor) : result Q :=
  if (shape0 A =? 1) && (shape1 A =? 1) then OK (entry A 0 0)
  else Err RuntimeError_shape.

(** [A * c] for a number [c]. *)
Definition mul_scalar (A : Tensor) (c : Q) : Tensor :=
  mkTensor (shape0 A) (shape1 A) (λ i j, entry A i j * c)%Q.

(** [A / d] for a Python int [d]. Dividing a tensor by 0 does not raise in
    torch: the entries become inf or nan, and so does everything [_HSIC]
    computes from them; no rational stands for that, the computation is
    reported as [NotFinite] from there. *)
Definition div_int (A : Tensor) (d : Z) : result Tensor :=
  if (d =? 0)%Z then Err NotFinite
  else OK (mkTensor (shape0 A) (shape1 A) (λ i j, entry A i j / inject_Z d)%Q).

(** [a / d] for two Python ints: true division, [ZeroDivisionError] on 0. *)
Definition int_truediv (a d : Z) : result Q :=
  if (d =? 0)%Z then Err ZeroDivisionError
  else OK (inject_Z a / inject_Z d)%Q.

(** [A.fill_diagonal_(c)] *)
Definition fill_diagonal_ (A : Tensor) (c : Q) : Tensor :=
  mkTensor (shape0 A) (shape1 A) (λ i j, if i =? j then c else entry A i j).

Definition _HSIC (K L : Tensor) : result Q :=
  let N := Z.of_nat (shape0 K) in
  let ones := ones (shape0 K) 1 in
  KL <- matmul K L ;;
  let result := trace KL in
  a <- matmul (t ones) K ;;
  a <- matmul a ones ;;
  a <- matmul a (t ones) ;;
  a <- matmul a L ;;
  a <- matmul a ones ;;
  a <- div_int a ((N - 1) * (N - 2)) ;;
  a <- item a ;;
  let result := (result + a)%Q in
  b <- matmul (t ones) K ;;
  b <- matmul b L ;;
  b <- matmul b ones ;;
  b <- div_int (mul_scalar b 2) (N - 2) ;;
  b <- item b ;;
  let result := (result - b)%Q in
  c <- int_truediv 1 (N * (N - 3)) ;;
  OK (c * result)%Q.

(** The kernel matrix of a logged feature: [X = feat.flatten(1)] (a logged
    feature is 2-D, so [X] is [feat]), [K = X @ X.t()],
    [K.fill_diagonal_(0)]. *)
Definition kernel (feat : Tensor) : result Tensor :=
  K <- matmul feat (t feat) ;;
  OK (fill_diagonal_ K 0).

(** The two loops of [compare] over the logged features of the two models,
    with [num_batches = 1]. For the feature [i] of model 1 the result holds
    the entry [hsic_matrix[i, :, 0]] and, for each feature [j] of model 2, the
    entries [hsic_matrix[i, j, 1]] and [hsic_matrix[i, j, 2]]. The final
    normalisation by square roots is floating-point work and not part of
    the model. *)
Fixpoint compare_inner (K : Tensor) (model2_features : list Tensor)
    : result (list (Q * Q)) :=
  match model2_features with
  | [] => OK []
  | feat2 :: rest =>
      L <- kernel feat2 ;;
      (if (shape0 K =? shape0 L) && (shape1 K =? shape1 L)
       then OK tt else Err AssertionError) ;;;
      h1 <- _HSIC K L ;;
      h2 <- _HSIC L L ;;
      row <- compare_inner K rest ;;
      OK ((h1, h2) :: row)
  end.

Fixpoint compare (model1_features model2_features : list Tensor)
    : result (list (Q * list (Q * Q))) :=
  match model1_features with
  | [] => OK []
  | feat1 :: rest =>
      K <- kernel feat1 ;;
      h0 <- _HSIC K K ;;
      row <- compare_inner K model2_features ;;
      rows <- compare rest model2_features ;;
      OK ((h0, row) :: rows)
  end.

Module Examples.

(** Features with [n] rows and two columns. *)
Definition feat (n : nat) : Tensor :=
  mkTensor n 2 (λ i j, inject_Z (Z.of_nat (i + 2 * j))).

End Examples.

(** ** The [CKA] object: [__init__], [_log_layer], [_insert_hooks], [export] *)

(** What the methods below raise, with the message or the attribute. *)
Inductive raised : Type :=
| Raise_RuntimeError (msg : string)
| Raise_AttributeError (attribute : string).

Inductive outcome (A : Type) : Type :=
| Return (a : A)
| Raise (e : raised).
Arguments Return {A} a.
Arguments Raise {A} e.

(** A Python dict with string keys: the entries in insertion order.
    [d[k] = v] replaces the value of a key that is present, in place, and
    appends a key that is not. *)
Fixpoint dict_set {V} (k : string) (v : V) (d : list (string * V)) : list (string * V) :=
  match d with
  | [] => [(k, v)]
  | (k', v') :: d =>
      if String.eqb k k' then (k, v) :: d else (k', v') :: dict_set k v d
  end.

Fixpoint dict_get {V} (k : string) (d : list (string * V)) : option V :=
  match d with
  | [] => None
  | (k', v') :: d => if String.eqb k k' then Some v' else dict_get k d
  end.

(** [s.split('(')[0]]: the part of [s] before its first opening bracket,
    all of [s] if it has none. *)
Fixpoint before_paren (s : string) : string :=
  match s with
  | EmptyString => EmptyString
  | String c s' => if Ascii.eqb c "("%char then EmptyString else String c (before_paren s')
  end.

(** A forward hook as [CKA] registers it, [partial(self._log_layer, tag,
    name)]: the model tag and the layer name that it binds. *)
Abbreviation hook := (string * string)%type.

(** Module objects are addressed by reference, and hooks are registered on
    the module object itself: the store gives, for each module object, its
    forward hooks in order of registration. A module on which nothing was
    registered has no entry. Two models that share a module, or one model
    passed twice, refer to the same objects. *)
Abbreviation hook_store := (gmap loc (list hook)).

Definition forward_hooks (h : hook_store) (layer : loc) : list hook :=
  default [] (h !! layer).

(** [layer.register_forward_hook(hk)] *)
Definition register_forward_hook (layer : loc) (hk : hook) (h : hook_store) : hook_store :=
  <[layer := forward_hooks h layer ++ [hk]]> h.

(** An [nn.Module] as [CKA] uses it: what [__repr__()] returns, and what
    [named_modules()] yields, in order: the name of each module with the
    module object (one pair per module, so their number is the number of
    [modules()]). *)
Record nn_Module : Type := mk_nn_Module {
  repr : string;
  named_modules : list (string * loc)
}.

Inductive warning : Type :=
| Identical_names (name : string)
| Many_layers (model : string).

(** What [export] returns. *)
Record exported : Type := mk_exported {
  e_model1_name : string;
  e_model2_name : string;
  e_CKA : list (list Q);
  e_model1_layers : list string;
  e_model2_layers : list string
}.

Section Object.

(** The outputs that the hooks log are tensors of any number of dimensions;
    [_log_layer] looks at [out.ndim] only. *)
Context {T : Type}.
Variable ndim : T → nat.

(** The attributes of a [CKA] object. The two models are the ones given to
    the constructor, which may be one and the same. [hsic_matrix] is [None]
    as long as the attribute has not been assigned. *)
Record Object : Type := mkObject {
  model1 : nn_Module;
  model2 : nn_Module;
  model1_info_Name : string;
  model2_info_Name : string;
  model1_info_Layers : list string;
  model2_info_Layers : list string;
  model1_features : list (string * T);
  model2_features : list (string * T);
  model1_layers : option (list string);
  model2_layers : option (list string);
  hsic_matrix : option (list (list Q))
}.

Definition _log_layer (self : Object) (model name : string) (out : T) : outcome Object :=
  if negb (ndim out =? 2) then Return self
  else if String.eqb model "model1" then
    Return (mkObject (model1 self) (model2 self)
              (model1_info_Name self) (model2_info_Name self)
              (model1_info_Layers self) (model2_info_Layers self)
              (dict_set name out (model1_features self)) (model2_features self)
              (model1_layers self) (model2_layers self) (hsic_matrix self))
  else if String.eqb model "model2" then
    Return (mkObject (model1 self) (model2 self)
              (model1_info_Name self) (model2_info_Name self)
              (model1_info_Layers self) (model2_info_Layers self)
              (model1_features self) (dict_set name out (model2_features self))
              (model1_layers self) (model2_layers self) (hsic_matrix self))
  else Raise (Raise_RuntimeError "Unknown model name for _log_layer.").

(** One of the two loops of [_insert_hooks], over the named modules of a
    model: a name is recorded in the model's [Layers], and its module gets a
    hook, when no list of layers was given or when the name is in the list. *)
Fixpoint insert_hooks_loop (tag : string) (layers : option (list string))
    (named : list (string * loc)) (info_Layers : list string) (h : hook_store)
    : list string * hook_store :=
  match named with
  | [] => (info_Layers, h)
  | (name, layer) :: named =>
      match layers with
      | Some ls =>
          if bool_decide (name ∈ ls)
          then insert_hooks_loop tag layers named
                 (info_Layers ++ [name]) (register_forward_hook layer (tag, name) h)
          else insert_hooks_loop tag layers named info_Layers h
      | None =>
          insert_hooks_loop tag layers named
            (info_Layers ++ [name]) (register_forward_hook layer (tag, name) h)
      end
  end.

Definition _insert_hooks (self : Object) (h : hook_store) : Object * hook_store :=
  let '(Layers1, h1) :=
    insert_hooks_loop "model1" (model1_layers self) (named_modules (model1 self))
      (model1_info_Layers self) h in
  let '(Layers2, h2) :=
    insert_hooks_loop "model2" (model2_layers self) (named_modules (model2 self))
      (model2_info_Layers self) h1 in
  (mkObject
     (model1 self) (model2 self)
     (model1_info_Name self) (model2_info_Name self)
     Layers1 Layers2
     (model1_features self) (model2_features self)
     (model1_layers self) (model2_layers self) (hsic_matrix self),
   h2).

(** [CKA(model1, model2, model1_name, model2_name, model1_layers,
    model2_layers)], run on the module objects as they are in [h]: the new
    object with the module objects after the hooks were registered, and the
    warnings given on the way. Moving the models to the device and putting
    them in evaluation mode changes nothing that is modelled. *)
Definition __init__ (model1 model2 : nn_Module)
    (model1_name model2_name : option string)
    (model1_layers model2_layers : option (list string)) (h : hook_store)
    : Object * hook_store * list warning :=
  let Name1 := match model1_name with
               | None => before_paren (repr model1)
               | Some name => name
               end in
  let Name2 := match model2_name with
               | None => before_paren (repr model2)
               | Some name => name
               end in
  let warnings :=
    (if String.eqb Name1 Name2 then [Identical_names Name2] else [])
    ++ (if (150 <? length (named_modules model1)) && bool_decide (model1_layers = None)
        then [Many_layers "Model 1"] else [])
    ++ (if (150 <? length (named_modules model2)) && bool_decide (model2_layers = None)
        then [Many_layers "Model 2"] else []) in
  (_insert_hooks
     (mkObject model1 model2 Name1 Name2 [] [] [] [] model1_layers model2_layers None) h,
   warnings).

Definition export (self : Object) : outcome exported :=
  match hsic_matrix self with
  | None => Raise (Raise_AttributeError "hsic_matrix")
  | Some CKA =>
      Return (mk_exported (model1_info_Name self) (model2_info_Name self) CKA
                (model1_info_Layers self) (model2_info_Layers self))
  end.

End Object.

(** The named modules that [_insert_hooks] hooks, of those of a model. *)
Definition hooked (layers : option (list string)) (named : list (string * loc))
    : list (string * loc) :=
  match layers with
  | Some ls => filter (λ p, p.1 ∈ ls) named
  | None => named
  end.

(** The hooks that one loop of [_insert_hooks] registers on the module
    object [layer]: one for each hooked name under which the model has this
    module, in order. *)
Definition hooks_of (tag : string) (layers : option (list string))
    (named : list (string * loc)) (layer : loc) : list hook :=
  (λ p, (tag, p.1)) <$> filter (λ p, p.2 = layer) (hooked layers named).

(** Two models for the examples, with their root module and their layers. *)
Definition GCN : nn_Module :=
  mk_nn_Module "GCN(...)" [("", 1%positive); ("conv1", 2%positive); ("conv2", 3%positive)].
Definition SGC : nn_Module :=
  mk_nn_Module "SGC(...)" [("", 4%positive); ("conv", 5%positive)].

(** The unbiased estimate of HSIC that the docstring of [_HSIC] refers to
    (equation 3 of the reference), for two [n x n] matrices given by their
    entries: [(tr(KL) + 1'K1 1'L1 / ((n-1)(n-2)) - 2 1'KL1 / (n-2)) / (n(n-3))]. *)
Definition hsic_value (n : nat) (eK eL : nat → nat → Q) : Q :=
  let N := Z.of_nat n in
  (inject_Z 1 / inject_Z (N * (N - 3))
   * (sum_upto n (λ i, sum_upto n (λ k, eK i k * eL k i))
      + sum_upto n (λ i, sum_upto n (λ j, eK i j))
        * sum_upto n (λ i, sum_upto n (λ j, eL i j))
        / inject_Z ((N - 1) * (N - 2))
      - sum_upto n (λ j, sum_upto n (λ k, sum_upto n (λ i, eK i k * eL k j))) * 2
        / inject_Z (N - 2)))%Q.

(** A square tensor of side [n]. *)
Definition square (n : nat) (A : Tensor) : Prop := shape0 A = n ∧ shape1 A = n.

End CKA.

(** * The layer [TAGConv] of [graphwar/nn/layers/tag_conv.py] *)

Module TAGConv.

Import CKA.
Local Open Scope res_scope.

(** [edge_index: Adj] is an edge index (a [2 x E] tensor of node ids), a
    [SparseTensor] or a dense adjacency matrix. *)
Inductive Adj : Type :=
| EdgeIndex (edges : list (nat * nat))
| SparseT (A : Tensor)
| DenseT (A : Tensor).

(** [Linear(in_features, out_features, bias)]: [weight] is
    [out_features x in_features]. *)
Record Linear : Type := mkLinear {
  weight : Tensor;
  bias : option (list Q)
}.

Record TAGConv : Type := mkTAGConv {
  in_channels : nat;
  out_channels : nat;
  K : nat;
  add_self_loops : bool;
  normalize : bool;
  lin : Linear
}.

(** What [__init__] establishes: the linear map takes [in_channels * (K+1)]
    columns to [out_channels] columns. *)
Definition wf_conv (self : TAGConv) : Prop :=
  shape0 (weight (lin self)) = out_channels self
  ∧ shape1 (weight (lin self)) = in_channels self * (K self + 1)
  ∧ match bias (lin self) with
    | Some b => length b = out_channels self
    | None => True
    end.

(** [self.lin(xs)], that is [xs @ weight.t() + bias]; the bias is added to
    every row, a bias with one entry to every column. *)
Definition linear (l : Linear) (xs : Tensor) : result Tensor :=
  y <- matmul xs (t (weight l)) ;;
  match bias l with
  | None => OK y
  | Some b =>
      if length b =? shape1 y
      then OK (mkTensor (shape0 y) (shape1 y) (λ i j, entry y i j + nth j b 0)%Q)
      else if length b =? 1
      then OK (mkTensor (shape0 y) (shape1 y) (λ i j, entry y i j + nth 0 b 0)%Q)
      else Err RuntimeError_shape
  end.

(** [torch.cat([A, B], dim=-1)] for two matrices. *)
Definition cat2 (A B : Tensor) : result Tensor :=
  if shape0 A =? shape0 B then
    OK (mkTensor (shape0 A) (shape1 A + shape1 B)
          (λ i j, if j <? shape1 A then entry A i j else entry B i (j - shape1 A)))
  else Err RuntimeError_shape.

(** [torch.cat(xs, dim=-1)] for a list of matrices; torch raises on the
    empty list and on matrices with different numbers of rows. *)
Fixpoint cat (xs : list Tensor) : result Tensor :=
  match xs with
  | [] => Err RuntimeError_shape
  | [A] => OK A
  | A :: xs => B <- cat xs ;; cat2 A B
  end.

Section Forward.

(** Functions of the repository and of torch_geometric that are not among
    the sources: [graphwar.is_edge_index], [gcn_norm] (for an edge index and
    for a [SparseTensor]), [graphwar.nn.layers.gcn_conv.dense_gcn_norm] and
    [graphwar.functional.spmm]. *)
Variable is_edge_index : Adj → bool.
Variable gcn_norm :
  Adj → option (list Q) → nat → bool → result (Adj * option (list Q)).
Variable dense_gcn_norm : Adj → bool → result Adj.
Variable spmm : Tensor → Adj → option (list Q) → result Tensor.

(** [edge_index @ x] for an adjacency matrix; an edge index is no matrix
    that could be multiplied with the features. *)
Definition adj_matmul (edge_index : Adj) (x : Tensor) : result Tensor :=
  match edge_index with
  | SparseT A | DenseT A => matmul A x
  | EdgeIndex _ => Err RuntimeError_shape
  end.

(** The loop [for k in range(self.K)]: [xs] collects [x] after each step. *)
Fixpoint propagate (K : nat) (is_edge_like : bool) (edge_index : Adj)
    (edge_weight : option (list Q)) (x : Tensor) (xs : list Tensor)
    : result (list Tensor) :=
  match K with
  | O => OK xs
  | S K =>
      x <- (if is_edge_like then spmm x edge_index edge_weight
            else adj_matmul edge_index x) ;;
      propagate K is_edge_like edge_index edge_weight x (xs ++ [x])
  end.

Definition forward (self : TAGConv) (x : Tensor) (edge_index : Adj)
    (edge_weight : option (list Q)) : result Tensor :=
  let is_edge_like := is_edge_index edge_index in
  normed <-
    (if normalize self then
       if is_edge_like then
         gcn_norm edge_index edge_weight (shape0 x) (add_self_loops self)
       else
         match edge_index with
         | SparseT _ =>
             r <- gcn_norm edge_index edge_weight (shape0 x) (add_self_loops self) ;;
             OK (r.1, edge_weight)
         | _ =>
             A <- dense_gcn_norm edge_index (add_self_loops self) ;;
             OK (A, edge_weight)
         end
     else OK (edge_index, edge_weight)) ;;
  xs <- propagate (K self) is_edge_like normed.1 normed.2 x [x] ;;
  xs <- cat xs ;;
  linear (lin self) xs.

End Forward.

(** A tensor with [r] rows and [c] columns. *)
Definition has_shape (r c : nat) (A : Tensor) : Prop := shape0 A = r ∧ shape1 A = c.

Module Examples.

(** A layer with 2 input channels, 1 output channel and [K = 1]. *)
Definition conv : TAGConv :=
  mkTAGConv 2 1 1 true false (mkLinear (mkTensor 1 4 (λ _ _, 1%Q)) (Some [0%Q])).

(** The same layer with [K = 0]. *)
Definition conv0 : TAGConv :=
  mkTAGConv 2 1 0 true false (mkLinear (mkTensor 1 2 (λ _ _, 1%Q)) (Some [0%Q])).

Definition by_constructor (edge_index : Adj) : bool :=
  match edge_index with EdgeIndex _ => true | _ => false end.

Definition no_norm (edge_index : Adj) (edge_weight : option (list Q)) (n : nat)
    (add_self_loops : bool) : result (Adj * option (list Q)) :=
  OK (edge_index, edge_weight).

Definition no_dense_norm (edge_index : Adj) (add_self_loops : bool) : result Adj :=
  OK edge_index.

Definition no_spmm (x : Tensor) (edge_index : Adj) (edge_weight : option (list Q))
    : result Tensor :=
  OK x.

End Examples.

End TAGConv.

(** * The marker line of [examples/attack/targeted/gf_attack.py] *)

Module Scripts.

(** A Python string as the list of its code points; [45] is the hyphen and
    [128070] the pointing hand. *)
Definition hyphen : Z := 45.
Definition hand : Z := 128070.

(** [s * n] for a string [s] and an int [n]: empty for [n <= 0]. *)
Definition str_mul (s : list Z) (n : Z) : list Z :=
  concat (replicate (Z.to_nat n) s).

(** The line printed under the predicted probabilities:
    ['-' * target_label * width + '----' + hand
     + '-' * max(num_classes - target_label - 1, 0) * width]. *)
Definition marker_line (target_label num_classes width : Z) : list Z :=
  str_mul (str_mul [hyphen] target_label) width
  ++ [hyphen; hyphen; hyphen; hyphen; hand]
  ++ str_mul (str_mul [hyphen] (Z.max (num_classes - target_label - 1) 0)) width.

End Scripts.

(** * Properties *)

(** ** Evaluation lemmas for the monad *)

Lemma bind_OK {A B} (m : M A) (k : A → M B) w w' a :
  m w = (w', OK a) → bind m k w = k a w'.
Proof. intros H. unfold bind. by rewrite H. Qed.

Lemma bind_Err {A B} (m : M A) (k : A → M B) w w' e :
  m w = (w', Err e) → bind m k w = (w', Err e).
Proof. intros H. unfold bind. by rewrite H. Qed.

Lemma getattr_OK {A} self (field : BackdoorAttacker → A) w a :
  sessions w !! self = Some a → getattr self field w = (w, OK (field a)).
Proof. intros H. unfold getattr. by rewrite H. Qed.

Lemma getattr_None {A} self (field : BackdoorAttacker → A) w :
  sessions w !! self = None → getattr self field w = (w, Err NameError).
Proof. intros H. unfold getattr. by rewrite H. Qed.

Lemma setattr_OK self upd w a :
  sessions w !! self = Some a →
  setattr self upd w = (set_sessions <[self := upd a]> w, OK tt).
Proof. intros H. unfold setattr. by rewrite H. Qed.

Lemma set_sessions_lookup self a w :
  sessions (set_sessions <[self := a]> w) !! self = Some a.
Proof. simpl. apply lookup_insert_eq. Qed.

Lemma set_sessions_twice self a b w :
  set_sessions <[self := b]> (set_sessions <[self := a]> w)
  = set_sessions <[self := b]> w.
Proof. unfold set_sessions. simpl. by rewrite insert_insert_eq. Qed.

(** Two writes to attributes of [self] in a row. *)
Lemma setattr_setattr {B} self f1 (k : M B) w a :
  sessions w !! self = Some a →
  (setattr self f1 ;;; k) w = k (set_sessions <[self := f1 a]> w).
Proof. intros H. by rewrite (bind_OK _ _ _ _ _ (setattr_OK _ _ _ _ H)). Qed.

Lemma getattr_bind {A B} self (field : BackdoorAttacker → A) (k : A → M B) w a :
  sessions w !! self = Some a →
  (x <- getattr self field ;; k x) w = k (field a) w.
Proof. intros H. by rewrite (bind_OK _ _ _ _ _ (getattr_OK _ _ _ _ H)). Qed.

Ltac write_attr :=
  erewrite setattr_setattr by (first [apply set_sessions_lookup | eassumption]);
  rewrite ?set_sessions_twice.

Ltac read_attr :=
  erewrite getattr_bind by (first [apply set_sessions_lookup | eassumption]).

(** ** [reset] *)

(** C7. On every attacker object, [reset()] sets [num_budgets] to [None],
    clears the stored trigger, sets [is_reseted] (the session is Ready), leaves
    every other attribute and every other object as it was, and returns the
    attacker itself. *)
Theorem reset_clears_and_returns_self (self : loc) (a : BackdoorAttacker) (w : world) :
  sessions w !! self = Some a →
  reset self w =
    (set_sessions
       <[self := mkBackdoorAttacker (graph a) (num_nodes a) (num_feats a)
                   None None (targets_class a) true]> w,
     OK self).
Proof.
  intros Ha. unfold reset.
  do 3 write_attr. reflexivity.
Qed.

Lemma reset_clears_and_returns_self_witness :
  reset 1%positive Examples.w0 =
    (set_sessions
       <[1%positive := mkBackdoorAttacker 1%positive 3 2 None None None true]> Examples.w0,
     OK 1%positive).
Proof. apply (reset_clears_and_returns_self 1%positive Examples.A0). reflexivity. Defined.

(** ** [attack] *)

Section AttackProperties.

Variable check : budget → nat → result Z.

Lemma attack_not_reset self a w b tc :
  sessions w !! self = Some a → is_reseted a = false →
  attack check self b tc w = (w, Err RuntimeError_not_reset).
Proof.
  intros Ha Hr. unfold attack. read_attr. by rewrite Hr.
Qed.

Lemma attack_rejected_budget self a w b tc e :
  sessions w !! self = Some a → is_reseted a = true →
  check b (num_feats a) = Err e →
  attack check self b tc w = (w, Err e).
Proof.
  intros Ha Hr Hc. unfold attack. read_attr. rewrite Hr. simpl.
  read_attr. unfold lift at 1. unfold bind at 1. by rewrite Hc.
Qed.

Lemma attack_overflow self a w b tc n :
  sessions w !! self = Some a → is_reseted a = true →
  check b (num_feats a) = OK n →
  LongTensor1 tc = Err RuntimeError_overflow →
  attack check self b tc w =
    (set_sessions <[self := with_num_budgets (Some n) a]> w, Err RuntimeError_overflow).
Proof.
  intros Ha Hr Hc Ht. unfold attack. read_attr. rewrite Hr. simpl.
  read_attr. unfold lift at 1. unfold bind at 1. rewrite Hc.
  write_attr. unfold lift, bind. by rewrite Ht.
Qed.

Lemma attack_accepted self a w b tc n :
  sessions w !! self = Some a → is_reseted a = true →
  check b (num_feats a) = OK n →
  (- 2 ^ 63 ≤ tc < 2 ^ 63)%Z →
  attack check self b tc w =
    (set_sessions
       <[self := mkBackdoorAttacker (graph a) (num_nodes a) (num_feats a)
                   (Some n) (_trigger a) (Some [tc]) false]> w,
     OK self).
Proof.
  intros Ha Hr Hc Ht. unfold attack. read_attr. rewrite Hr. simpl.
  read_attr. unfold lift at 1. unfold bind at 1. rewrite Hc.
  write_attr. unfold lift at 1, bind at 1.
  assert (LongTensor1 tc = OK [tc]) as ->.
  { unfold LongTensor1.
    destruct (Z.leb_spec (- 2 ^ 63) tc), (Z.ltb_spec tc (2 ^ 63)); simpl; auto; lia. }
  do 2 write_attr. reflexivity.
Qed.

Lemma LongTensor1_cases tc :
  LongTensor1 tc = OK [tc] ∧ (- 2 ^ 63 ≤ tc < 2 ^ 63)%Z
  ∨ LongTensor1 tc = Err RuntimeError_overflow.
Proof.
  unfold LongTensor1.
  destruct (Z.leb_spec (- 2 ^ 63) tc), (Z.ltb_spec tc (2 ^ 63)); simpl; auto.
Qed.

End AttackProperties.

(** C2. On a session that is not reset ([is_reseted] is false: no [reset()]
    since construction or since the last successful [attack()]),
    [attack(num_budgets, targets_class)] raises the lifecycle error and leaves
    the whole store, hence the session, as it was. *)
Theorem attack_unreset_raises_NotReadyError
    (check : budget → nat → result Z) (self : loc) (a : BackdoorAttacker) (w : world)
    (num_budgets : budget) (targets_class : Z) :
  sessions w !! self = Some a →
  is_reseted a = false →
  attack check self num_budgets targets_class w = (w, Err NotReadyError).
Proof. apply attack_not_reset. Qed.

Lemma attack_unreset_raises_NotReadyError_witness :
  attack _check_budget 1%positive (IntBudget 1) 0 Examples.w0
  = (Examples.w0, Err NotReadyError).
Proof.
  apply (attack_unreset_raises_NotReadyError _check_budget 1%positive Examples.A0);
    reflexivity.
Defined.

(** C3. On a reset session, [attack(num_budgets, targets_class)] with
    [num_budgets] above the feature dimensionality [num_feats] raises
    [BudgetExceeded] (with the budget validation modelled from the spec). *)
Theorem attack_over_budget_raises_BudgetExceeded
    (self : loc) (a : BackdoorAttacker) (w : world)
    (num_budgets : budget) (targets_class : Z) :
  sessions w !! self = Some a →
  is_reseted a = true →
  (inject_Z (Z.of_nat (num_feats a)) < budget_value num_budgets)%Q →
  attack _check_budget self num_budgets targets_class w = (w, Err BudgetExceeded).
Proof.
  intros Ha Hr Hlt. apply (attack_rejected_budget _ _ a); auto.
  unfold _check_budget.
  destruct (Qle_bool _ _) eqn:E; [|reflexivity].
  apply Qle_bool_iff in E. apply Qle_not_lt in E. contradiction.
Qed.

Lemma attack_over_budget_raises_BudgetExceeded_witness :
  let w1 := set_sessions <[1%positive := with_is_reseted true Examples.A0]> Examples.w0 in
  attack _check_budget 1%positive (IntBudget 3) 0 w1 = (w1, Err BudgetExceeded).
Proof.
  apply (attack_over_budget_raises_BudgetExceeded 1%positive
           (with_is_reseted true Examples.A0)); reflexivity.
Defined.

(** C5. A call to [attack] that raises the lifecycle error [NotReadyError] or
    [BudgetExceeded] leaves the store as it was: [num_budgets], [_trigger],
    [targets_class] and [is_reseted] of the session keep their values. *)
Theorem attack_atomic_on_rejection
    (check : budget → nat → result Z) (self : loc) (w w' : world)
    (num_budgets : budget) (targets_class : Z) (e : exn) :
  attack check self num_budgets targets_class w = (w', Err e) →
  e = NotReadyError ∨ e = BudgetExceeded →
  w' = w.
Proof.
  intros Hrun He.
  destruct (sessions w !! self) as [a|] eqn:Ha.
  - destruct (is_reseted a) eqn:Hr.
    + destruct (check num_budgets (num_feats a)) as [n|e'] eqn:Hc.
      * destruct (LongTensor1_cases targets_class) as [[_ Hin]|Hov].
        -- rewrite (attack_accepted _ _ _ _ _ _ _ Ha Hr Hc Hin) in Hrun. congruence.
        -- rewrite (attack_overflow _ _ _ _ _ _ _ Ha Hr Hc Hov) in Hrun.
           inversion Hrun; subst. destruct He; discriminate.
      * rewrite (attack_rejected_budget _ _ _ _ _ _ _ Ha Hr Hc) in Hrun. congruence.
    + rewrite (attack_not_reset _ _ _ _ _ _ Ha Hr) in Hrun. congruence.
  - unfold attack in Hrun. rewrite (bind_Err _ _ _ _ _ (getattr_None _ _ _ Ha)) in Hrun.
    congruence.
Qed.

Lemma attack_atomic_on_rejection_witness :
  let w1 := set_sessions <[1%positive := with_is_reseted true Examples.A0]> Examples.w0 in
  attack _check_budget 1%positive (IntBudget 3) 0 w1 = (w1, Err BudgetExceeded)
  ∧ w1 = w1.
Proof.
  intros w1. split; [reflexivity |].
  apply (attack_atomic_on_rejection _check_budget 1%positive w1 w1 (IntBudget 3) 0
           BudgetExceeded); [reflexivity | right; reflexivity].
Defined.

Lemma attack_success_iff
    (check : budget → nat → result Z) (self : loc) (a : BackdoorAttacker) (w w' : world)
    (num_budgets : budget) (targets_class : Z) (r : loc) :
  sessions w !! self = Some a →
  is_reseted a = true →
  attack check self num_budgets targets_class w = (w', OK r)
  ↔ ∃ n, check num_budgets (num_feats a) = OK n
         ∧ (- 2 ^ 63 ≤ targets_class < 2 ^ 63)%Z
         ∧ w' = set_sessions
                  <[self := mkBackdoorAttacker (graph a) (num_nodes a) (num_feats a)
                              (Some n) (_trigger a) (Some [targets_class]) false]> w
         ∧ r = self.
Proof.
  intros Ha Hr. split.
  - intros Hrun.
    destruct (check num_budgets (num_feats a)) as [n|e'] eqn:Hc.
    + destruct (LongTensor1_cases targets_class) as [[_ Hin]|Hov].
      * rewrite (attack_accepted _ _ _ _ _ _ _ Ha Hr Hc Hin) in Hrun.
        inversion Hrun; subst. by exists n.
      * rewrite (attack_overflow _ _ _ _ _ _ _ Ha Hr Hc Hov) in Hrun. congruence.
    + rewrite (attack_rejected_budget _ _ _ _ _ _ _ Ha Hr Hc) in Hrun. congruence.
  - intros (n & Hc & Hin & -> & ->). by apply attack_accepted.
Qed.

(** A class outside the int64 range makes the tensor construction raise after
    [num_budgets] was assigned: the budget stays stored and the session stays
    reset. This failure is none of the two rejections of the validation. *)
Example attack_overflow_example :
  let a1 := with_is_reseted true Examples.A0 in
  let w1 := set_sessions <[1%positive := a1]> Examples.w0 in
  attack _check_budget 1%positive (IntBudget 2) (2 ^ 63) w1
  = (set_sessions <[1%positive := with_num_budgets (Some 2%Z) a1]> w1,
     Err RuntimeError_overflow).
Proof. reflexivity. Qed.

(** C8. On a reset session, [attack(num_budgets, targets_class)] succeeds
    exactly when the validation accepts [num_budgets] against [num_feats] and
    the class fits the label tensor; it then stores the validated budget in
    [num_budgets], binds [targets_class] to the one-element tensor
    [[targets_class]], clears [is_reseted] (the session leaves Ready), changes
    nothing else and returns the attacker. *)
Theorem attack_success_stores_budget_and_class
    (check : budget → nat → result Z) (self : loc) (a : BackdoorAttacker) (w w' : world)
    (num_budgets : budget) (targets_class : Z) (r : loc) :
  sessions w !! self = Some a →
  is_reseted a = true →
  attack check self num_budgets targets_class w = (w', OK r)
  ↔ ∃ n, check num_budgets (num_feats a) = OK n
         ∧ (- 2 ^ 63 ≤ targets_class < 2 ^ 63)%Z
         ∧ w' = set_sessions
                  <[self := mkBackdoorAttacker (graph a) (num_nodes a) (num_feats a)
                              (Some n) (_trigger a) (Some [targets_class]) false]> w
         ∧ r = self.
Proof. apply attack_success_iff. Qed.

Lemma attack_success_stores_budget_and_class_witness :
  let a1 := with_is_reseted true Examples.A0 in
  let w1 := set_sessions <[1%positive := a1]> Examples.w0 in
  let w2 := set_sessions
              <[1%positive := mkBackdoorAttacker 1%positive 3 2 (Some 2%Z) None
                                (Some [1%Z]) false]> w1 in
  attack _check_budget 1%positive (IntBudget 2) 1 w1 = (w2, OK 1%positive).
Proof.
  intros a1 w1 w2.
  apply (attack_success_stores_budget_and_class _check_budget 1%positive a1 w1 w2
           (IntBudget 2) 1%Z 1%positive); [reflexivity | reflexivity |].
  exists 2%Z. repeat split; try reflexivity; lia.
Defined.

(** ** Graph operations: what they compute and what they leave alone *)

Lemma set_graphs_lookup l G w : graphs (set_graphs <[l := G]> w) !! l = Some G.
Proof. simpl. apply lookup_insert_eq. Qed.

Lemma set_graphs_twice l G1 G2 w :
  set_graphs <[l := G2]> (set_graphs <[l := G1]> w) = set_graphs <[l := G2]> w.
Proof. unfold set_graphs. simpl. by rewrite insert_insert_eq. Qed.

Lemma deref_graph_OK l G w : graphs w !! l = Some G → deref_graph l w = (w, OK G).
Proof. intros H. unfold deref_graph. by rewrite H. Qed.

Lemma add_nodes_rows l G w num d :
  graphs w !! l = Some G → num ≠ 0 →
  length d = num → Forall (λ r, length r = g_scheme G) d →
  add_nodes l num (Some d) w =
    (set_graphs
       <[l := mkDGLGraph (g_num_nodes G + num) (g_edges G) (g_scheme G) (g_FEATURE G ++ d)]> w,
     OK tt).
Proof.
  intros Hl Hnum Hlen Hw. unfold add_nodes.
  rewrite (bind_OK _ _ _ _ _ (deref_graph_OK _ _ _ Hl)).
  destruct (Nat.eqb_spec num 0) as [|_]; [done|].
  assert (forallb (λ r, length r =? g_scheme G) d = true) as Hfa.
  { apply forallb_forall. intros r Hr. apply Nat.eqb_eq.
    rewrite Forall_forall in Hw. apply Hw. by apply list_elem_of_In. }
  unfold lift, bind. rewrite Hfa. by rewrite (proj2 (Nat.eqb_eq _ _) Hlen).
Qed.

Lemma add_edges_existing l G w u v :
  graphs w !! l = Some G →
  u < g_num_nodes G → v < g_num_nodes G →
  add_edges l u v w =
    (set_graphs
       <[l := mkDGLGraph (g_num_nodes G) (g_edges G ++ [(u, v)]) (g_scheme G) (g_FEATURE G)]> w,
     OK tt).
Proof.
  intros Hl Hu Hv. unfold add_edges.
  rewrite (bind_OK _ _ _ _ _ (deref_graph_OK _ _ _ Hl)).
  destruct (Nat.ltb_spec (g_num_nodes G) (S (u `max` v))) as [|_]; [lia|].
  unfold ret at 1. unfold bind at 1.
  by rewrite (bind_OK _ _ _ _ _ (deref_graph_OK _ _ _ Hl)).
Qed.

Lemma add_nodes_bind {B} l G w num d (k : M B) :
  graphs w !! l = Some G → num ≠ 0 →
  length d = num → Forall (λ r, length r = g_scheme G) d →
  (add_nodes l num (Some d) ;;; k) w =
    k (set_graphs
         <[l := mkDGLGraph (g_num_nodes G + num) (g_edges G) (g_scheme G)
                  (g_FEATURE G ++ d)]> w).
Proof. intros. by erewrite bind_OK by by apply add_nodes_rows. Qed.

Lemma add_edges_bind {B} l G w u v (k : M B) :
  graphs w !! l = Some G →
  u < g_num_nodes G → v < g_num_nodes G →
  (add_edges l u v ;;; k) w =
    k (set_graphs
         <[l := mkDGLGraph (g_num_nodes G) (g_edges G ++ [(u, v)]) (g_scheme G)
                  (g_FEATURE G)]> w).
Proof. intros. by erewrite bind_OK by by apply add_edges_existing. Qed.

Lemma touches_only_ret {A} l (a : A) : touches_only l (ret a).
Proof. by intros w. Qed.

Lemma touches_only_raise {A} l e : touches_only l (@raise A e).
Proof. by intros w. Qed.

Lemma touches_only_lift {A} l (r : result A) : touches_only l (lift r).
Proof. by intros w. Qed.

Lemma touches_only_bind {A B} l (m : M A) (k : A → M B) :
  touches_only l m → (∀ a, touches_only l (k a)) → touches_only l (bind m k).
Proof.
  intros Hm Hk w. unfold bind. specialize (Hm w).
  destruct (m w) as [w1 [a|e]]; simpl in *; [|done].
  destruct (Hk a w1) as [Hs Hg]. destruct Hm as [Hs' Hg'].
  split; [congruence|]. intros l' Hl'. rewrite Hg, Hg'; auto.
Qed.

Lemma touches_only_getattr {A} l self (field : BackdoorAttacker → A) :
  touches_only l (getattr self field).
Proof. intros w. unfold getattr. by destruct (sessions w !! self). Qed.

Lemma touches_only_deref l gr : touches_only l (deref_graph gr).
Proof. intros w. unfold deref_graph. by destruct (graphs w !! gr). Qed.

Lemma touches_only_store l G : touches_only l (store_graph l G).
Proof.
  intros w. split; [done|]. intros l' Hl'. simpl. by rewrite lookup_insert_ne.
Qed.

Create HintDb frame.
#[local] Hint Resolve touches_only_ret touches_only_raise touches_only_lift
  touches_only_getattr touches_only_deref touches_only_store : frame.

Lemma touches_only_add_nodes l num data : touches_only l (add_nodes l num data).
Proof.
  unfold add_nodes. apply touches_only_bind; [auto with frame|]. intros G.
  destruct (num =? 0); [auto with frame|].
  apply touches_only_bind; auto with frame.
Qed.

Lemma touches_only_add_edges l u v : touches_only l (add_edges l u v).
Proof.
  unfold add_edges. apply touches_only_bind; [auto with frame|]. intros G.
  apply touches_only_bind.
  - destruct (_ <? _); [apply touches_only_add_nodes | auto with frame].
  - intros _. apply touches_only_bind; auto with frame.
Qed.

#[local] Hint Resolve touches_only_add_nodes touches_only_add_edges : frame.

(** [g] writes to no attacker object and to no graph object that existed
    before the call: every write goes to the copy made by [local_var]. *)
Lemma local_var_OK gr G w :
  graphs w !! gr = Some G →
  local_var gr w =
    (set_graphs <[fresh (dom (graphs w)) := G]> w, OK (fresh (dom (graphs w)))).
Proof. intros H. unfold local_var. by rewrite (bind_OK _ _ _ _ _ (deref_graph_OK _ _ _ H)). Qed.

Lemma local_var_None gr w :
  graphs w !! gr = None → local_var gr w = (w, Err NameError).
Proof. intros H. unfold local_var, bind, deref_graph. by rewrite H. Qed.

Lemma g_frame self target symmetric w :
  sessions (g self target symmetric w).1 = sessions w
  ∧ graphs w ⊆ graphs (g self target symmetric w).1.
Proof.
  remember (g self target symmetric w) as out eqn:Hout. unfold g in Hout.
  destruct (sessions w !! self) as [a|] eqn:Ha.
  2: { rewrite (bind_Err _ _ _ _ _ (getattr_None _ _ _ Ha)) in Hout. by subst out. }
  revert Hout. read_attr.
  destruct (graphs w !! graph a) as [G|] eqn:HG.
  2: { rewrite (bind_Err _ _ _ _ _ (local_var_None _ _ HG)). by intros ->. }
  rewrite (bind_OK _ _ _ _ _ (local_var_OK _ _ _ HG)).
  set (l := fresh (dom (graphs w))).
  match goal with |- out = ?k _ → _ => set (rest := k) end.
  assert (touches_only l rest) as Hrest.
  { subst rest. apply touches_only_bind; [auto with frame|]. intros n.
    apply touches_only_bind; [unfold trigger; auto with frame|]. intros t.
    apply touches_only_bind; [destruct t; auto with frame|]. intros data.
    repeat (apply touches_only_bind; [|intros _]); auto with frame.
    destruct symmetric; auto with frame. }
  intros ->.
  destruct (Hrest (set_graphs <[l:=G]> w)) as [Hs Hg].
  split; [by rewrite Hs|].
  apply map_subseteq_spec. intros l' G' Hl'.
  assert (l' ≠ l) as Hne.
  { intros ->. apply (is_fresh (dom (graphs w))). apply elem_of_dom. by eexists. }
  rewrite (Hg l' Hne). simpl. by rewrite lookup_insert_ne.
Qed.

(** ** [g] *)

Lemma g_computes self a G w t target_node symmetric :
  sessions w !! self = Some a →
  graphs w !! graph a = Some G →
  num_nodes a = g_num_nodes G →
  _trigger a = Some t →
  length t = g_scheme G →
  target_node < g_num_nodes G →
  g self target_node symmetric w =
    (set_graphs <[fresh (dom (graphs w)) := spliced G t target_node symmetric]> w,
     OK (fresh (dom (graphs w)))).
Proof.
  intros Ha HG Hn Ht Hlen Htarget. unfold g.
  read_attr. rewrite (bind_OK _ _ _ _ _ (local_var_OK _ _ _ HG)).
  set (l := fresh (dom (graphs w))).
  assert (∀ G1, sessions (set_graphs <[l := G1]> w) !! self = Some a) as Ha' by done.
  rewrite (getattr_bind _ _ _ _ _ (Ha' _)).
  unfold trigger. rewrite (getattr_bind _ _ _ _ _ (Ha' _)).
  rewrite Ht, Hn.
  unfold view_1_m1, lift at 1. unfold bind at 1.
  erewrite add_nodes_bind by (first [apply set_graphs_lookup | by constructor | done]).
  rewrite set_graphs_twice. simpl.
  destruct symmetric.
  - do 3 (erewrite add_edges_bind by (first [apply set_graphs_lookup | simpl; lia]);
          rewrite set_graphs_twice; simpl).
    unfold ret, spliced. by rewrite <- !app_assoc.
  - erewrite add_edges_bind by (first [apply set_graphs_lookup | simpl; lia]).
    rewrite set_graphs_twice; simpl.
    unfold ret at 1. unfold bind at 1.
    erewrite add_edges_bind by (first [apply set_graphs_lookup | simpl; lia]).
    rewrite set_graphs_twice; simpl.
    unfold ret, spliced. by rewrite <- !app_assoc.
Qed.

(** C1 as it is stated, for every [target_node], does not hold: [g] does not
    check [target_node] against the graph. On a session on which [attack()]
    has completed and a trigger of the feature dimension is stored, a
    [target_node] beyond the nodes makes [add_edges] create the missing
    nodes, with zero features: [g(7, False)] on the graph of 3 nodes returns
    a graph of 8 nodes, not of [num_nodes + 1 = 4]. *)
Lemma g_target_out_of_range :
  let cs := [Call_reset 1%positive;
             Call_attack 1%positive (IntBudget 1) 0;
             Store_trigger 1%positive [1 # 2; 3 # 4]] in
  let w1 := (run _check_budget cs Examples.w0).1 in
  Forall (λ r, is_OK r = true) (run _check_budget cs Examples.w0).2
  ∧ (∃ a, sessions w1 !! 1%positive = Some a
          ∧ is_reseted a = false
          ∧ num_nodes a = 3
          ∧ _trigger a = Some [1 # 2; 3 # 4]
          ∧ length [1 # 2; 3 # 4] = num_feats a)
  ∧ (∃ l G', (g 1%positive 7 false w1).2 = OK l
             ∧ graphs (g 1%positive 7 false w1).1 !! l = Some G'
             ∧ g_num_nodes G' = 8)
  ∧ ¬ (∃ l G', (g 1%positive 7 false w1).2 = OK l
               ∧ graphs (g 1%positive 7 false w1).1 !! l = Some G'
               ∧ g_num_nodes G' = 3 + 1).
Proof.
  intros cs w1. split; [|split; [|split]].
  - repeat constructor.
  - eexists. split; [reflexivity|]. repeat split.
  - exists 2%positive. eexists. split; [reflexivity|]. split; reflexivity.
  - intros (l & G' & Hl & HG' & Hn).
    assert ((g 1%positive 7 false w1).2 = OK 2%positive) as Hl2 by reflexivity.
    rewrite Hl2 in Hl. injection Hl as <-.
    assert (g_num_nodes <$> graphs (g 1%positive 7 false w1).1 !! 2%positive = Some 8)
      as H8 by reflexivity.
    rewrite HG' in H8. simpl in H8. injection H8 as H8. lia.
Qed.

(** With [target_node = num_nodes] the target is the new node itself: the
    mirrored edge is then the self-loop, which is there without [symmetric]. *)
Example g_target_is_new_node :
  let a1 := with_trigger (Some [1 # 2; 3 # 4]) Examples.A0 in
  let w1 := set_sessions <[1%positive := a1]> Examples.w0 in
  ∃ l, (g 1%positive 3 false w1).2 = OK l
       ∧ g_edges <$> graphs (g 1%positive 3 false w1).1 !! l
         = Some (g_edges Examples.G0 ++ [(3, 3); (3, 3)]).
Proof. exists 2%positive. split; reflexivity. Qed.

(** C1, for a target among the nodes of the graph. On a session whose stored
    trigger has the feature dimension (as after a completed attack),
    [g(target_node, symmetric)] for a node [target_node] of the graph
    returns a new graph object with [num_nodes + 1] nodes, in which the new
    node [num_nodes] has the trigger as its feature row, the edge
    [(num_nodes, target_node)], the mirrored edge [(target_node, num_nodes)]
    exactly when [symmetric] holds, and the self-loop
    [(num_nodes, num_nodes)]. The feature dimension may be 0. *)
Theorem g_splices_trigger_node
    (self : loc) (a : BackdoorAttacker) (G : DGLGraph) (w : world)
    (t : list scalar) (target_node : nat) (symmetric : bool) :
  sessions w !! self = Some a →
  graphs w !! graph a = Some G →
  wf_graph G →
  num_nodes a = g_num_nodes G →
  num_feats a = g_scheme G →
  _trigger a = Some t →
  length t = num_feats a →
  target_node < num_nodes a →
  ∃ l G',
    g self target_node symmetric w = (set_graphs <[l := G']> w, OK l)
    ∧ graphs w !! l = None
    ∧ g_num_nodes G' = num_nodes a + 1
    ∧ g_FEATURE G' !! num_nodes a = Some t
    ∧ (num_nodes a, target_node) ∈ g_edges G'
    ∧ ((target_node, num_nodes a) ∈ g_edges G' ↔ symmetric = true)
    ∧ (num_nodes a, num_nodes a) ∈ g_edges G'.
Proof.
  intros Ha HG (Hrows & _ & Hedges) Hn Hf Ht Hlen Htarget.
  exists (fresh (dom (graphs w))), (spliced G t target_node symmetric).
  split.
  { apply (g_computes _ a); auto; lia. }
  split.
  { apply not_elem_of_dom. apply is_fresh. }
  rewrite Hn in *. unfold spliced. simpl.
  split; [done|]. split.
  { rewrite lookup_app_r by lia. by rewrite Hrows, Nat.sub_diag. }
  split; [set_solver|]. split; [|set_solver].
  split.
  - intros Hin. destruct symmetric; [done|]. exfalso.
    rewrite elem_of_app in Hin. destruct Hin as [Hin|Hin].
    + rewrite Forall_forall in Hedges. apply Hedges in Hin. simpl in Hin. lia.
    + simpl in Hin. rewrite !elem_of_cons in Hin.
      destruct Hin as [Heq|[Heq|Hin]]; [inversion Heq; lia|inversion Heq; lia|].
      by apply elem_of_nil in Hin.
  - intros ->. set_solver.
Qed.

Lemma g_splices_trigger_node_witness :
  let a1 := with_trigger (Some [1 # 2; 3 # 4]) Examples.A0 in
  let w1 := set_sessions <[1%positive := a1]> Examples.w0 in
  ∃ l G',
    g 1%positive 1 true w1 = (set_graphs <[l := G']> w1, OK l)
    ∧ graphs w1 !! l = None
    ∧ g_num_nodes G' = 3 + 1
    ∧ g_FEATURE G' !! 3 = Some [1 # 2; 3 # 4]
    ∧ (3, 1) ∈ g_edges G'
    ∧ ((1, 3) ∈ g_edges G' ↔ true = true)
    ∧ (3, 3) ∈ g_edges G'.
Proof.
  intros a1 w1.
  apply (g_splices_trigger_node 1%positive a1 Examples.G0 w1 [1 # 2; 3 # 4] 1 true);
    try reflexivity; simpl; try lia.
  apply (bool_decide_unpack (wf_graph Examples.G0)). vm_compute. exact I.
Defined.

(** ** Call sequences *)

Section Preserves.

Variable R : relation world.
Context `{!PreOrder R}.

Lemma preserves_ret {A} (a : A) : preserves R (ret a).
Proof. intros w. simpl. reflexivity. Qed.

Lemma preserves_raise {A} e : preserves R (@raise A e).
Proof. intros w. simpl. reflexivity. Qed.

Lemma preserves_lift {A} (r : result A) : preserves R (lift r).
Proof. intros w. simpl. reflexivity. Qed.

Lemma preserves_getattr {A} self (field : BackdoorAttacker → A) :
  preserves R (getattr self field).
Proof. intros w. unfold getattr. destruct (sessions w !! self); simpl; reflexivity. Qed.

Lemma preserves_bind {A B} (m : M A) (k : A → M B) :
  preserves R m → (∀ a, preserves R (k a)) → preserves R (bind m k).
Proof.
  intros Hm Hk w. unfold bind. specialize (Hm w).
  destruct (m w) as [w1 [a|e]]; simpl in *; [|done].
  etransitivity; [exact Hm | apply Hk].
Qed.

Lemma preserves_setattr self upd :
  (∀ w a, sessions w !! self = Some a → R w (set_sessions <[self := upd a]> w)) →
  preserves R (setattr self upd).
Proof.
  intros H w. unfold setattr. destruct (sessions w !! self) eqn:E; simpl; [auto|reflexivity].
Qed.

Lemma preserves_g self target symmetric :
  (∀ w w', sessions w' = sessions w → graphs w ⊆ graphs w' → R w w') →
  preserves R (g self target symmetric).
Proof. intros H w. destruct (g_frame self target symmetric w). by apply H. Qed.

(** A call whose attribute writes respect [R] respects [R]. *)
Lemma preserves_exec check c :
  (∀ w w', sessions w' = sessions w → graphs w ⊆ graphs w' → R w w') →
  (∀ self upd, match c with
               | Call_reset s' | Call_attack s' _ _ | Store_trigger s' _ => self = s'
               | _ => False
               end →
     (∃ v, upd = with_num_budgets v) ∨ (∃ v, upd = with_trigger v)
     ∨ (∃ v, upd = with_targets_class v)
     ∨ (upd = with_is_reseted false)
     ∨ (upd = with_is_reseted true ∧ c = Call_reset self) →
     preserves R (setattr self upd)) →
  preserves R (exec check c).
Proof.
  intros Hg Hset. destruct c as [self|self b tc|self|self target sym|self t]; simpl.
  - unfold reset.
    repeat (apply preserves_bind; [|intros ?]); try apply preserves_ret;
      apply Hset; eauto 10.
  - apply preserves_bind; [|intros ?; apply preserves_ret].
    unfold attack. apply preserves_bind; [apply preserves_getattr|]. intros r.
    destruct r; simpl; [|apply preserves_raise].
    repeat (apply preserves_bind; [|intros ?]);
      try apply preserves_ret; try apply preserves_lift; try apply preserves_getattr;
      apply Hset; eauto 10.
  - apply preserves_bind; [apply preserves_getattr|]. intros ?. apply preserves_ret.
  - apply preserves_bind; [by apply preserves_g|]. intros ?. apply preserves_ret.
  - apply preserves_bind; [|intros ?; apply preserves_ret]. apply Hset; eauto 10.
Qed.

End Preserves.

Lemma run_cons check c cs w :
  run check (c :: cs) w =
    ((run check cs (exec check c w).1).1,
     (exec check c w).2 :: (run check cs (exec check c w).1).2).
Proof. simpl. destruct (exec check c w) as [w1 r]. simpl. by destruct (run check cs w1). Qed.

Lemma run_app check cs1 cs2 w :
  run check (cs1 ++ cs2) w =
    ((run check cs2 (run check cs1 w).1).1,
     (run check cs1 w).2 ++ (run check cs2 (run check cs1 w).1).2).
Proof.
  revert w. induction cs1 as [|c cs1 IH]; intros w.
  - simpl. by destruct (run check cs2 w).
  - rewrite <- app_comm_cons. rewrite !run_cons. rewrite IH. reflexivity.
Qed.

Lemma run_length check cs w : length (run check cs w).2 = length cs.
Proof.
  revert w. induction cs as [|c cs IH]; intros w; [done|].
  rewrite run_cons. simpl. by rewrite IH.
Qed.

Lemma preserves_run R `{!PreOrder R} check cs :
  Forall (λ c, preserves R (exec check c)) cs → ∀ w, R w (run check cs w).1.
Proof.
  induction 1 as [|c cs Hc _ IH]; intros w; [simpl; reflexivity|].
  rewrite run_cons. simpl. etransitivity; [apply Hc | apply IH].
Qed.

(** *** The input graph *)

Lemma keeps_inputs_setattr self upd :
  (∀ a, graph (upd a) = graph a) → preserves keeps_inputs (setattr self upd).
Proof.
  intros Hupd. apply preserves_setattr; [apply _|]. intros w a Ha.
  split; [done|]. intros self' a' Ha'. simpl.
  destruct (decide (self = self')) as [->|Hne].
  - rewrite lookup_insert_eq. exists (upd a). split; [done|]. rewrite Hupd. congruence.
  - rewrite lookup_insert_ne by done. eauto.
Qed.

Lemma keeps_inputs_exec check c : preserves keeps_inputs (exec check c).
Proof.
  apply preserves_exec; [apply _| |].
  - intros w w' Hs Hg. split; [done|]. rewrite Hs. eauto.
  - intros self upd _ Hupd. apply keeps_inputs_setattr.
    destruct Hupd as [[v ->]|[[v ->]|[[v ->]|[->|[-> _]]]]]; done.
Qed.

(** C4. Along every sequence of [reset()], [attack()], [trigger()] and [g()]
    calls (on any sessions, with triggers stored in between), the attacker
    keeps referring to the same input graph object and this object keeps its
    content (node count, edges, features); so does every graph object that
    existed before the calls: [g()] writes to its local copy only. *)
Theorem input_graph_never_mutated
    (check : budget → nat → result Z) (cs : list call) (w : world)
    (self : loc) (a : BackdoorAttacker) (G : DGLGraph) :
  sessions w !! self = Some a →
  graphs w !! graph a = Some G →
  let w' := (run check cs w).1 in
  (∃ a', sessions w' !! self = Some a' ∧ graph a' = graph a)
  ∧ graphs w' !! graph a = Some G
  ∧ graphs w ⊆ graphs w'.
Proof.
  intros Ha HG w'.
  assert (keeps_inputs w w') as [Hsub Hsess].
  { apply preserves_run; [apply _|]. apply Forall_forall. intros c _.
    apply keeps_inputs_exec. }
  split; [by apply Hsess|]. split; [|done].
  by apply (lookup_weaken _ _ _ _ HG).
Qed.

Lemma input_graph_never_mutated_witness :
  let cs := [Call_reset 1%positive; Call_attack 1%positive (IntBudget 2) 1;
             Store_trigger 1%positive [1 # 2; 3 # 4]; Call_g 1%positive 1 true;
             Call_g 1%positive 7 false] in
  let w' := (run _check_budget cs Examples.w0).1 in
  (∃ a', sessions w' !! 1%positive = Some a' ∧ graph a' = graph Examples.A0)
  ∧ graphs w' !! graph Examples.A0 = Some Examples.G0
  ∧ graphs Examples.w0 ⊆ graphs w'.
Proof.
  intros cs.
  apply (input_graph_never_mutated _check_budget cs Examples.w0 1%positive
           Examples.A0 Examples.G0); reflexivity.
Defined.

(** *** One attack per reset *)

Lemma stays_unreset_setattr self self' upd :
  self' ≠ self ∨ (∀ a, is_reseted a = false → is_reseted (upd a) = false) →
  preserves (stays_unreset self) (setattr self' upd).
Proof.
  intros Hupd. apply preserves_setattr; [apply _|]. intros w a Ha (a0 & Ha0 & Hr).
  unfold unreset. simpl.
  destruct (decide (self' = self)) as [->|Hne].
  - rewrite lookup_insert_eq. exists (upd a). split; [done|].
    destruct Hupd as [?|Hupd]; [done|]. apply Hupd. congruence.
  - rewrite lookup_insert_ne by done. eauto.
Qed.

Lemma stays_unreset_exec check self c :
  c ≠ Call_reset self → preserves (stays_unreset self) (exec check c).
Proof.
  intros Hc. apply preserves_exec; [apply _| |].
  - intros w w' Hs _. unfold stays_unreset, unreset. by rewrite Hs.
  - intros self' upd _ Hupd. apply stays_unreset_setattr.
    destruct Hupd as [[v ->]|[[v ->]|[[v ->]|[->|[-> ->]]]]]; auto.
    left. congruence.
Qed.

Lemma attack_OK_unreset check self b tc w w' r :
  attack check self b tc w = (w', OK r) → unreset self w'.
Proof.
  intros Hrun.
  destruct (sessions w !! self) as [a|] eqn:Ha.
  - destruct (is_reseted a) eqn:Hr.
    + destruct (attack_success_iff check self a w w' b tc r Ha Hr) as [H _].
      destruct (H Hrun) as (n & _ & _ & -> & _).
      eexists. split; [apply set_sessions_lookup|done].
    + rewrite (attack_not_reset _ _ _ _ _ _ Ha Hr) in Hrun. congruence.
  - unfold attack in Hrun. rewrite (bind_Err _ _ _ _ _ (getattr_None _ _ _ Ha)) in Hrun.
    congruence.
Qed.

Lemma exec_attack_OK check self b tc w :
  is_OK (exec check (Call_attack self b tc) w).2 = true →
  unreset self (exec check (Call_attack self b tc) w).1.
Proof.
  destruct (attack check self b tc w) as [w' [r|e]] eqn:E; cbn [exec].
  - rewrite (bind_OK _ _ _ _ _ E). intros _. by eapply attack_OK_unreset.
  - by rewrite (bind_Err _ _ _ _ _ E).
Qed.

Lemma exec_attack_unreset check self b tc w :
  unreset self w →
  exec check (Call_attack self b tc) w = (w, Err NotReadyError).
Proof.
  intros (a & Ha & Hr). simpl.
  by rewrite (bind_Err _ _ _ _ _ (attack_not_reset check _ _ _ b tc Ha Hr)).
Qed.

Lemma run_unreset check self cs w :
  Call_reset self ∉ cs → unreset self w → unreset self (run check cs w).1.
Proof.
  intros Hcs. apply (preserves_run (stays_unreset self)).
  apply Forall_forall. intros c Hc. apply stays_unreset_exec.
  intros ->. contradiction.
Qed.

Lemma nth_first {A} (x : A) (l : list A) : (x :: l) !! 0 = Some x.
Proof. reflexivity. Qed.

Lemma nth_next {A} (x : A) (l : list A) (i : nat) : (x :: l) !! S i = l !! i.
Proof. reflexivity. Qed.

(** The outcome of the second of two [attack] calls on [self], when the first
    one succeeded and [mid] is what was called in between. *)
Lemma second_attack_outcome check w pre mid post self b1 c1 b2 c2 :
  let cs := pre ++ Call_attack self b1 c1 :: mid ++ Call_attack self b2 c2 :: post in
  let rs := (run check cs w).2 in
  is_OK <$> rs !! length pre = Some true →
  Call_reset self ∉ mid →
  rs !! (length pre + 1 + length mid) = Some (Err NotReadyError).
Proof.
  intros cs rs Hfirst Hmid. subst rs cs.
  rewrite run_app in Hfirst |- *. cbn [snd] in Hfirst |- *.
  set (w1 := (run check pre w).1) in *.
  rewrite lookup_app_r in Hfirst by (rewrite run_length; lia).
  rewrite lookup_app_r by (rewrite run_length; lia).
  rewrite run_length in Hfirst |- *. rewrite Nat.sub_diag in Hfirst.
  replace (length pre + 1 + length mid - length pre) with (S (length mid)) by lia.
  rewrite run_cons in Hfirst |- *. cbn [snd] in Hfirst |- *.
  rewrite nth_first in Hfirst. rewrite nth_next.
  set (w2 := (exec check (Call_attack self b1 c1) w1).1) in *.
  assert (unreset self w2) as Hw2.
  { apply exec_attack_OK. by inversion Hfirst. }
  rewrite run_app. cbn [snd].
  rewrite lookup_app_r by (rewrite run_length; lia).
  rewrite run_length, Nat.sub_diag. rewrite run_cons. cbn [snd]. rewrite nth_first.
  rewrite exec_attack_unreset; [done|]. by apply run_unreset.
Qed.

(** C6. After a successful [attack()] on a session, a second [attack()] on it
    raises the lifecycle error unless [reset()] was called on the session in
    between; hence between two successful [attack()] calls of a call sequence
    there is a [reset()]. *)
Theorem no_two_attacks_on_one_reset
    (check : budget → nat → result Z) (w : world) (pre mid post : list call)
    (self : loc) (b1 b2 : budget) (c1 c2 : Z) :
  let cs := pre ++ Call_attack self b1 c1 :: mid ++ Call_attack self b2 c2 :: post in
  let rs := (run check cs w).2 in
  is_OK <$> rs !! length pre = Some true →
  (Call_reset self ∉ mid →
   rs !! (length pre + 1 + length mid) = Some (Err NotReadyError))
  ∧ (is_OK <$> rs !! (length pre + 1 + length mid) = Some true →
     Call_reset self ∈ mid).
Proof.
  intros cs rs Hfirst. split.
  - by apply second_attack_outcome.
  - intros Hsecond. destruct (decide (Call_reset self ∈ mid)) as [|Hmid]; [done|].
    pose proof (second_attack_outcome check w pre mid post self b1 c1 b2 c2 Hfirst Hmid)
      as Hfail.
    fold cs in Hfail. fold rs in Hfail. rewrite Hfail in Hsecond. discriminate.
Qed.

Lemma no_two_attacks_on_one_reset_witness :
  let pre := [Call_reset 1%positive] in
  let mid := [Store_trigger 1%positive [1 # 2; 3 # 4]; Call_g 1%positive 1 true] in
  let cs := pre ++ Call_attack 1%positive (IntBudget 2) 1
              :: mid ++ Call_attack 1%positive (IntBudget 1) 0 :: [] in
  let rs := (run _check_budget cs Examples.w0).2 in
  rs !! 4 = Some (Err NotReadyError).
Proof.
  intros pre mid cs rs.
  refine (proj1 (no_two_attacks_on_one_reset _check_budget Examples.w0 pre mid []
                   1%positive (IntBudget 2) (IntBudget 1) 1 0 _) _).
  - reflexivity.
  - subst mid. rewrite !not_elem_of_cons. repeat split; try discriminate.
    apply not_elem_of_nil.
Defined.

(** ** Further properties of [BackdoorAttacker] *)

Lemma reset_computes self a w :
  sessions w !! self = Some a →
  reset self w =
    (set_sessions
       <[self := mkBackdoorAttacker (graph a) (num_nodes a) (num_feats a)
                   None None (targets_class a) true]> w,
     OK self).
Proof. intros Ha. unfold reset. do 3 write_attr. reflexivity. Qed.

(** [g] up to the point where it reads the trigger: the copy is made first. *)
Lemma g_after_copy self a G w target_node symmetric :
  sessions w !! self = Some a →
  graphs w !! graph a = Some G →
  g self target_node symmetric w =
    (data <- match _trigger a with
             | None => raise AttributeError
             | Some t => lift (view_1_m1 t)
             end ;;
     add_nodes (fresh (dom (graphs w))) 1 (Some data) ;;;
     add_edges (fresh (dom (graphs w))) (num_nodes a) target_node ;;;
     (if symmetric
      then add_edges (fresh (dom (graphs w))) target_node (num_nodes a)
      else ret tt) ;;;
     add_edges (fresh (dom (graphs w))) (num_nodes a) (num_nodes a) ;;;
     ret (fresh (dom (graphs w))))
      (set_graphs <[fresh (dom (graphs w)) := G]> w).
Proof.
  intros Ha HG. unfold g.
  read_attr. rewrite (bind_OK _ _ _ _ _ (local_var_OK _ _ _ HG)).
  set (l := fresh (dom (graphs w))).
  assert (sessions (set_graphs <[l := G]> w) !! self = Some a) as Ha' by done.
  rewrite (getattr_bind _ _ _ _ _ Ha').
  unfold trigger. by rewrite (getattr_bind _ _ _ _ _ Ha').
Qed.

Lemma add_nodes_bad_rows l G w t :
  graphs w !! l = Some G → length t ≠ g_scheme G →
  add_nodes l 1 (Some [t]) w = (w, Err DGLError).
Proof.
  intros Hl Hlen. unfold add_nodes.
  rewrite (bind_OK _ _ _ _ _ (deref_graph_OK _ _ _ Hl)). simpl.
  destruct (Nat.eqb_spec (length t) (g_scheme G)); [done|]. reflexivity.
Qed.

Lemma g_no_trigger self a G w target_node symmetric :
  sessions w !! self = Some a →
  graphs w !! graph a = Some G →
  _trigger a = None →
  g self target_node symmetric w =
    (set_graphs <[fresh (dom (graphs w)) := G]> w, Err AttributeError).
Proof.
  intros Ha HG Ht. rewrite (g_after_copy _ _ _ _ _ _ Ha HG), Ht. reflexivity.
Qed.

(** X1. Without a stored trigger (as on a fresh or a reset session) [g]
    raises [AttributeError]; by then it has made its local copy, and nothing
    else in the store has changed. *)
Theorem g_without_trigger_raises
    (self : loc) (a : BackdoorAttacker) (G : DGLGraph) (w : world)
    (target_node : nat) (symmetric : bool) :
  sessions w !! self = Some a →
  graphs w !! graph a = Some G →
  _trigger a = None →
  g self target_node symmetric w =
    (set_graphs <[fresh (dom (graphs w)) := G]> w, Err AttributeError).
Proof. apply g_no_trigger. Qed.

Lemma g_without_trigger_raises_witness :
  (g 1%positive 1 true Examples.w0).2 = Err AttributeError.
Proof.
  rewrite (g_without_trigger_raises 1%positive Examples.A0 Examples.G0);
    reflexivity.
Defined.

(** X2. [reset] discards a stored trigger: right after [reset()],
    [trigger()] returns [None] and [g] raises [AttributeError], whatever was
    stored before; the graph objects that existed keep their content. *)
Theorem reset_discards_trigger
    (self : loc) (a : BackdoorAttacker) (G : DGLGraph) (w : world)
    (target_node : nat) (symmetric : bool) :
  sessions w !! self = Some a →
  graphs w !! graph a = Some G →
  (reset self ;;; trigger self) w = ((reset self w).1, OK None)
  ∧ ((reset self ;;; g self target_node symmetric) w).2 = Err AttributeError
  ∧ graphs w ⊆ graphs ((reset self ;;; g self target_node symmetric) w).1.
Proof.
  intros Ha HG.
  rewrite !(bind_OK _ _ _ _ _ (reset_computes _ _ _ Ha)).
  rewrite (reset_computes _ _ _ Ha). cbn [fst].
  set (a' := mkBackdoorAttacker _ _ _ _ _ _ _).
  set (w' := set_sessions <[self := a']> w).
  assert (sessions w' !! self = Some a') as Ha' by apply set_sessions_lookup.
  split; [|split].
  - unfold trigger. by rewrite (getattr_OK _ _ _ _ Ha').
  - by rewrite (g_no_trigger self a' G w' target_node symmetric Ha' HG eq_refl).
  - destruct (g_frame self target_node symmetric w') as [_ Hsub]. exact Hsub.
Qed.

Lemma reset_discards_trigger_witness :
  let w1 := set_sessions
              <[1%positive := with_trigger (Some [1 # 2; 3 # 4]) Examples.A0]> Examples.w0 in
  ((reset 1%positive ;;; g 1%positive 1 true) w1).2 = Err AttributeError.
Proof.
  intros w1.
  apply (reset_discards_trigger 1%positive
           (with_trigger (Some [1 # 2; 3 # 4]) Examples.A0) Examples.G0 w1 1 true);
    reflexivity.
Defined.
(** X3. [g] does not validate the trigger itself: a stored trigger whose
    number of elements differs from the graph's feature width (a trigger
    without elements on a graph with features included) is reshaped to one
    row and then refused by [add_nodes] with [DGLError]; only the local copy
    has been added to the store by then. *)
Theorem g_ill_shaped_trigger_raises
    (self : loc) (a : BackdoorAttacker) (G : DGLGraph) (w : world)
    (t : list scalar) (target_node : nat) (symmetric : bool) :
  sessions w !! self = Some a →
  graphs w !! graph a = Some G →
  _trigger a = Some t →
  length t ≠ g_scheme G →
  g self target_node symmetric w =
    (set_graphs <[fresh (dom (graphs w)) := G]> w, Err DGLError).
Proof.
  intros Ha HG Ht Hlen. rewrite (g_after_copy _ _ _ _ _ _ Ha HG), Ht.
  unfold view_1_m1, lift. unfold bind at 1.
  by rewrite (bind_Err _ _ _ _ _
                (add_nodes_bad_rows _ _ _ t (set_graphs_lookup _ _ _) Hlen)).
Qed.

Lemma g_ill_shaped_trigger_raises_witness :
  let w1 := set_sessions
              <[1%positive := with_trigger (Some []) Examples.A0]> Examples.w0 in
  (g 1%positive 1 true w1).2 = Err DGLError.
Proof.
  intros w1.
  rewrite (g_ill_shaped_trigger_raises 1%positive
             (with_trigger (Some []) Examples.A0) Examples.G0 w1 [] 1 true);
    try reflexivity.
  simpl. lia.
Defined.

(** On a graph without features (width 0) the trigger without elements is
    the one of the feature width, and [g] splices its node. *)
Example g_width_zero :
  let G := mkDGLGraph 2 [(0, 1); (1, 0)] 0 [[]; []] in
  let a := mkBackdoorAttacker 1%positive 2 0 (Some 0%Z) (Some []) (Some [0%Z]) false in
  let w := mkWorld {[ 1%positive := G ]} {[ 1%positive := a ]} in
  g 1%positive 0 true w
  = (set_graphs <[2%positive := mkDGLGraph 3 [(0, 1); (1, 0); (2, 0); (0, 2); (2, 2)] 0
                                   [[]; []; []]]> w,
     OK 2%positive).
Proof. reflexivity. Qed.

Lemma wf_graph_spliced G t target_node symmetric :
  wf_graph G → length t = g_scheme G → target_node < g_num_nodes G →
  wf_graph (spliced G t target_node symmetric).
Proof.
  intros (Hrows & Hwidth & Hedges) Hlen Htarget. unfold wf_graph, spliced. simpl.
  split; [rewrite length_app; simpl; lia|]. split.
  - apply Forall_app. split; [done|]. by repeat constructor.
  - apply Forall_app. split.
    + eapply Forall_impl; [exact Hedges|]. simpl. intros e [? ?]. lia.
    + destruct symmetric; repeat constructor; simpl; lia.
Qed.

(** X4. [g] only appends: on a well-formed graph, with a stored trigger of
    the graph's feature width (which may be 0) and for a target among its
    nodes, the returned graph satisfies the data model again, keeps the
    feature width, has the rows of the old nodes and the old edges as a
    prefix, and has two more edges, three when [symmetric]. *)
Theorem g_only_appends
    (self : loc) (a : BackdoorAttacker) (G : DGLGraph) (w : world)
    (t : list scalar) (target_node : nat) (symmetric : bool) :
  sessions w !! self = Some a →
  graphs w !! graph a = Some G →
  wf_graph G →
  num_nodes a = g_num_nodes G →
  _trigger a = Some t →
  length t = g_scheme G →
  target_node < g_num_nodes G →
  ∃ l G',
    g self target_node symmetric w = (set_graphs <[l := G']> w, OK l)
    ∧ wf_graph G'
    ∧ g_scheme G' = g_scheme G
    ∧ take (g_num_nodes G) (g_FEATURE G') = g_FEATURE G
    ∧ take (length (g_edges G)) (g_edges G') = g_edges G
    ∧ length (g_edges G') = length (g_edges G) + (if symmetric then 3 else 2).
Proof.
  intros Ha HG Hwf Hn Ht Hlen Htarget.
  exists (fresh (dom (graphs w))), (spliced G t target_node symmetric).
  split; [by apply (g_computes _ a)|].
  split; [by apply wf_graph_spliced|].
  destruct Hwf as (Hrows & _ & _). unfold spliced. simpl.
  split; [done|]. split; [by rewrite <- Hrows, take_app_length|].
  split; [by rewrite take_app_length|].
  rewrite length_app. destruct symmetric; simpl; lia.
Qed.

Lemma g_only_appends_witness :
  let a1 := with_trigger (Some [1 # 2; 3 # 4]) Examples.A0 in
  let w1 := set_sessions <[1%positive := a1]> Examples.w0 in
  ∃ l G',
    g 1%positive 1 false w1 = (set_graphs <[l := G']> w1, OK l)
    ∧ wf_graph G'
    ∧ g_scheme G' = 2
    ∧ take 3 (g_FEATURE G') = g_FEATURE Examples.G0
    ∧ take 4 (g_edges G') = g_edges Examples.G0
    ∧ length (g_edges G') = 4 + 2.
Proof.
  intros a1 w1.
  apply (g_only_appends 1%positive a1 Examples.G0 w1 [1 # 2; 3 # 4] 1 false);
    try reflexivity; try done; simpl; try lia.
  apply (bool_decide_unpack (wf_graph Examples.G0)). vm_compute. exact I.
Defined.

(** X5. [g] keeps no cache: with a stored trigger of the graph's feature
    width (which may be 0) and a target among the nodes, two calls in a row
    return two different graph objects with the same content, and the second
    call leaves the result of the first one as it was. *)
Theorem g_twice_two_objects
    (self : loc) (a : BackdoorAttacker) (G : DGLGraph) (w : world)
    (t : list scalar) (target_node : nat) (symmetric : bool) :
  sessions w !! self = Some a →
  graphs w !! graph a = Some G →
  num_nodes a = g_num_nodes G →
  _trigger a = Some t →
  length t = g_scheme G →
  target_node < g_num_nodes G →
  ∃ l1 l2 w1 w2 G',
    g self target_node symmetric w = (w1, OK l1)
    ∧ g self target_node symmetric w1 = (w2, OK l2)
    ∧ l1 ≠ l2
    ∧ graphs w1 !! l1 = Some G'
    ∧ graphs w2 !! l1 = Some G'
    ∧ graphs w2 !! l2 = Some G'.
Proof.
  intros Ha HG Hn Ht Hlen Htarget.
  set (l1 := fresh (dom (graphs w))).
  set (G' := spliced G t target_node symmetric).
  set (w1 := set_graphs <[l1 := G']> w).
  assert (graph a ≠ l1) as Hfresh.
  { intros Heq. apply (is_fresh (dom (graphs w))). fold l1. rewrite <- Heq.
    apply elem_of_dom. by eexists. }
  assert (graphs w1 !! graph a = Some G) as HG1.
  { simpl. by rewrite lookup_insert_ne. }
  assert (sessions w1 !! self = Some a) as Ha1 by done.
  set (l2 := fresh (dom (graphs w1))).
  assert (l1 ≠ l2) as Hl.
  { intros Heq. apply (is_fresh (dom (graphs w1))). fold l2. rewrite <- Heq.
    apply elem_of_dom. eexists. apply set_graphs_lookup. }
  exists l1, l2, w1, (set_graphs <[l2 := G']> w1), G'.
  split; [by apply (g_computes _ a)|].
  split; [by apply (g_computes _ a)|].
  split; [done|]. split; [apply set_graphs_lookup|]. split.
  - simpl. rewrite lookup_insert_ne by done. apply lookup_insert_eq.
  - apply set_graphs_lookup.
Qed.

Lemma g_twice_two_objects_witness :
  let a1 := with_trigger (Some [1 # 2; 3 # 4]) Examples.A0 in
  let w1 := set_sessions <[1%positive := a1]> Examples.w0 in
  ∃ l1 l2 w2 w3 G',
    g 1%positive 1 true w1 = (w2, OK l1)
    ∧ g 1%positive 1 true w2 = (w3, OK l2)
    ∧ l1 ≠ l2
    ∧ graphs w2 !! l1 = Some G'
    ∧ graphs w3 !! l1 = Some G'
    ∧ graphs w3 !! l2 = Some G'.
Proof.
  intros a1 w1.
  apply (g_twice_two_objects 1%positive a1 Examples.G0 w1 [1 # 2; 3 # 4] 1 true);
    try reflexivity; try done; simpl; lia.
Defined.
Lemma LongTensor1_out_of_range tc :
  (tc < - 2 ^ 63 ∨ 2 ^ 63 ≤ tc)%Z → LongTensor1 tc = Err RuntimeError_overflow.
Proof.
  intros Hout. unfold LongTensor1.
  destruct (Z.leb_spec (- 2 ^ 63) tc), (Z.ltb_spec tc (2 ^ 63)); simpl; auto; lia.
Qed.

(** X6. [attack] assigns [num_budgets] before it builds the label tensor:
    with a class outside the int64 range the call raises after the validated
    budget was stored, [targets_class] and [is_reseted] are as before, and,
    the session still being reset, a further [attack] with a class in range
    goes through without a [reset] in between. *)
Theorem attack_overflow_partial_write
    (check : budget → nat → result Z) (self : loc) (a : BackdoorAttacker) (w : world)
    (b b' : budget) (tc tc' : Z) (n n' : Z) :
  sessions w !! self = Some a →
  is_reseted a = true →
  check b (num_feats a) = OK n →
  (tc < - 2 ^ 63 ∨ 2 ^ 63 ≤ tc)%Z →
  check b' (num_feats a) = OK n' →
  (- 2 ^ 63 ≤ tc' < 2 ^ 63)%Z →
  let w1 := set_sessions
              <[self := mkBackdoorAttacker (graph a) (num_nodes a) (num_feats a)
                          (Some n) (_trigger a) (targets_class a) true]> w in
  attack check self b tc w = (w1, Err RuntimeError_overflow)
  ∧ (attack check self b' tc' w1).2 = OK self.
Proof.
  intros Ha Hr Hc Hout Hc' Hin w1. split.
  - rewrite (attack_overflow check _ _ _ b tc n Ha Hr Hc (LongTensor1_out_of_range _ Hout)).
    subst w1. unfold with_num_budgets. by rewrite Hr.
  - by rewrite (attack_accepted check self _ w1 b' tc' n' (set_sessions_lookup _ _ _)
                  eq_refl Hc' Hin).
Qed.

Lemma attack_overflow_partial_write_witness :
  let a1 := with_is_reseted true Examples.A0 in
  let w1 := set_sessions <[1%positive := a1]> Examples.w0 in
  let w2 := set_sessions
              <[1%positive := mkBackdoorAttacker 1%positive 3 2 (Some 2%Z) None None true]>
              w1 in
  attack _check_budget 1%positive (IntBudget 2) (2 ^ 63) w1 = (w2, Err RuntimeError_overflow)
  ∧ (attack _check_budget 1%positive (IntBudget 1) 0 w2).2 = OK 1%positive.
Proof.
  intros a1 w1 w2.
  apply (attack_overflow_partial_write _check_budget 1%positive a1 w1
           (IntBudget 2) (IntBudget 1) (2 ^ 63) 0 2 1); try reflexivity; lia.
Defined.

(** X7. [reset] re-arms a session: after a successful [attack], [reset]
    followed by a second [attack] succeeds; the session then holds the second
    budget and class, and a trigger stored before is gone. *)
Theorem attack_reset_attack
    (check : budget → nat → result Z) (self : loc) (a : BackdoorAttacker) (w : world)
    (b1 b2 : budget) (c1 c2 : Z) (n1 n2 : Z) :
  sessions w !! self = Some a →
  is_reseted a = true →
  check b1 (num_feats a) = OK n1 →
  (- 2 ^ 63 ≤ c1 < 2 ^ 63)%Z →
  check b2 (num_feats a) = OK n2 →
  (- 2 ^ 63 ≤ c2 < 2 ^ 63)%Z →
  (attack check self b1 c1 ;;; reset self ;;; attack check self b2 c2) w =
    (set_sessions
       <[self := mkBackdoorAttacker (graph a) (num_nodes a) (num_feats a)
                   (Some n2) None (Some [c2]) false]> w,
     OK self).
Proof.
  intros Ha Hr Hc1 Hin1 Hc2 Hin2.
  rewrite (bind_OK _ _ _ _ _ (attack_accepted check _ _ _ b1 c1 n1 Ha Hr Hc1 Hin1)).
  rewrite (bind_OK _ _ _ _ _ (reset_computes _ _ _ (set_sessions_lookup _ _ _))).
  rewrite set_sessions_twice. cbn [graph num_nodes num_feats targets_class].
  erewrite attack_accepted;
    [|apply set_sessions_lookup|reflexivity|exact Hc2|exact Hin2].
  by rewrite set_sessions_twice.
Qed.

Lemma attack_reset_attack_witness :
  let a1 := with_is_reseted true Examples.A0 in
  let w1 := set_sessions <[1%positive := a1]> Examples.w0 in
  (attack _check_budget 1%positive (IntBudget 2) 1 ;;; reset 1%positive ;;;
   attack _check_budget 1%positive (IntBudget 1) 0) w1 =
    (set_sessions
       <[1%positive := mkBackdoorAttacker 1%positive 3 2 (Some 1%Z) None (Some [0%Z]) false]>
       w1,
     OK 1%positive).
Proof.
  intros a1 w1.
  apply (attack_reset_attack _check_budget 1%positive a1 w1 (IntBudget 2) (IntBudget 1)
           1 0 2 1); try reflexivity; lia.
Defined.

Lemma same_session_exec check self c :
  call_self c ≠ self → preserves (same_session self) (exec check c).
Proof.
  intros Hc. apply preserves_exec; [apply _| |].
  - intros w w' Hs _. unfold same_session. by rewrite Hs.
  - intros self' upd Hself _. apply preserves_setattr; [apply _|].
    intros w a _. unfold same_session. simpl.
    rewrite lookup_insert_ne; [done|].
    destruct c; simpl in *; try done; by subst.
Qed.

(** X8. Sessions share no state: a sequence of calls made on other sessions
    leaves every attribute of a session as it was. *)
Theorem calls_on_other_sessions
    (check : budget → nat → result Z) (cs : list call) (w : world) (self : loc) :
  Forall (λ c, call_self c ≠ self) cs →
  sessions (run check cs w).1 !! self = sessions w !! self.
Proof.
  intros Hcs. apply (preserves_run (same_session self)).
  eapply Forall_impl; [exact Hcs|]. intros c Hc. by apply same_session_exec.
Qed.

Lemma calls_on_other_sessions_witness :
  let a2 := mkBackdoorAttacker 1%positive 3 2 None None None false in
  let w1 := set_sessions <[2%positive := a2]> Examples.w0 in
  let cs := [Call_reset 2%positive; Call_attack 2%positive (IntBudget 2) 1;
             Store_trigger 2%positive [1 # 2; 3 # 4]; Call_g 2%positive 1 true] in
  sessions (run _check_budget cs w1).1 !! 1%positive = sessions w1 !! 1%positive.
Proof.
  intros a2 w1 cs.
  apply (calls_on_other_sessions _check_budget cs w1 1%positive).
  subst cs. repeat constructor; simpl; discriminate.
Defined.

Lemma keeps_shape_exec check c : preserves keeps_shape (exec check c).
Proof.
  apply preserves_exec; [apply _| |].
  - intros w w' Hs Hg. split; [done|]. rewrite Hs. eauto.
  - intros self upd _ Hupd. apply preserves_setattr; [apply _|].
    intros w a Ha. split; [done|]. intros self' a' Ha'. simpl.
    destruct (decide (self = self')) as [->|Hne].
    + rewrite lookup_insert_eq. exists (upd a). split; [done|].
      assert (a' = a) as -> by congruence.
      destruct Hupd as [[v ->]|[[v ->]|[[v ->]|[->|[-> _]]]]]; done.
    + rewrite lookup_insert_ne by done. eauto.
Qed.

(** X9. No method assigns [graph], [num_nodes] or [num_feats], and no call
    writes to a graph object that exists: a session that refers to a
    well-formed graph with matching [num_nodes] and [num_feats] does so after
    every sequence of calls. *)
Theorem session_ok_invariant
    (check : budget → nat → result Z) (cs : list call) (w : world) (self : loc) :
  session_ok w self → session_ok (run check cs w).1 self.
Proof.
  intros (a & G & Ha & HG & Hwf & Hn & Hf).
  assert (keeps_shape w (run check cs w).1) as [Hsub Hsess].
  { apply preserves_run; [apply _|]. apply Forall_forall. intros c _.
    apply keeps_shape_exec. }
  destruct (Hsess _ _ Ha) as (a' & Ha' & Hgr & Hn' & Hf').
  exists a', G. rewrite Hgr, Hn', Hf'.
  split; [done|]. split; [|done].
  by apply (lookup_weaken _ _ _ _ HG).
Qed.

Lemma session_ok_invariant_witness :
  let cs := [Call_reset 1%positive; Call_attack 1%positive (IntBudget 2) 1;
             Store_trigger 1%positive [1 # 2; 3 # 4]; Call_g 1%positive 1 true] in
  session_ok (run _check_budget cs Examples.w0).1 1%positive.
Proof.
  intros cs. apply (session_ok_invariant _check_budget cs Examples.w0 1%positive).
  exists Examples.A0, Examples.G0. repeat split; try reflexivity.
  - repeat constructor.
  - repeat constructor; simpl; lia.
Defined.
(** * Properties of the targeted structure attacker *)

Module TargetedFacts.

Import Targeted.

(** ** Properties of the attack loop *)

Lemma flip_edge_in_range t v G :
  t < num_nodes G → v < num_nodes G →
  flip_edge t v G = OK (mkGraph (num_nodes G) (toggled (edges G) [(t, v)])).
Proof.
  intros Ht Hv. unfold flip_edge, add_edge, remove_edge, in_range, toggled. simpl.
  destruct (Nat.ltb_spec t (num_nodes G)); [|lia].
  destruct (Nat.ltb_spec v (num_nodes G)); [|lia].
  simpl. by destruct (bool_decide _).
Qed.

(** After flipping pairwise distinct edges, an edge is present exactly when
    it was flipped and absent before, or not flipped and present before. *)
Lemma toggled_spec E es e :
  NoDup es → e ∈ toggled E es ↔ (e ∈ E ↔ e ∉ es).
Proof.
  intros Hnd. revert E. induction Hnd as [|x es Hx Hnd IH]; intros E.
  - simpl. split; [intros He; split; [intros _; apply not_elem_of_nil|done]|].
    intros [_ He]. apply He, not_elem_of_nil.
  - change (toggled E (x :: es)) with (toggled (toggled E [x]) es).
    rewrite IH. unfold toggled. simpl. rewrite not_elem_of_cons.
    destruct (decide (e = x)) as [->|Hne]; case_bool_decide;
      rewrite ?elem_of_difference, ?elem_of_union, !elem_of_singleton; tauto.
Qed.

Section Loop.

Variable score : Graph → nat → nat → Q.

Lemma commit_all t candidates : ∀ G L flips,
  t < num_nodes G →
  Forall (λ v, v < num_nodes G) candidates →
  spent L + length candidates ≤ max_budget L →
  commit t candidates G L flips =
    OK (mkGraph (num_nodes G) (toggled (edges G) ((λ v, (t, v)) <$> candidates)),
        mkLedger (max_budget L) (spent L + length candidates),
        flips ++ ((λ v, (t, v)) <$> candidates)).
Proof.
  induction candidates as [|v candidates IH]; intros G L flips Ht Hall Hle.
  - simpl. rewrite Nat.add_0_r, app_nil_r. by destruct G, L.
  - simpl in *. apply Forall_cons in Hall as [Hv Hall].
    unfold reserve. destruct (Nat.ltb_spec (max_budget L) (spent L + 1)); [lia|].
    rewrite flip_edge_in_range by done.
    rewrite IH by (simpl; auto; lia). simpl.
    rewrite <- app_assoc.
    replace (spent L + 1 + length candidates) with (spent L + S (length candidates))
      by lia.
    reflexivity.
Qed.

Lemma eligible_NoDup G t : NoDup (eligible G t).
Proof. unfold eligible. apply NoDup_filter, NoDup_seq. Qed.

Lemma eligible_in_range G t v : v ∈ eligible G t → v < num_nodes G.
Proof.
  unfold eligible. rewrite list_elem_of_filter, elem_of_seq. lia.
Qed.

Lemma rank_Permutation G t l : rank score G t l ≡ₚ l.
Proof. unfold rank. apply merge_sort_Permutation. Qed.

Lemma top_in_range G t B :
  Forall (λ v, v < num_nodes G) (take B (rank score G t (eligible G t))).
Proof.
  apply Forall_take, Forall_forall. intros v Hv.
  rewrite rank_Permutation in Hv. by eapply eligible_in_range.
Qed.

Lemma top_NoDup G t B :
  NoDup ((λ v, (t, v)) <$> take B (rank score G t (eligible G t))).
Proof.
  apply NoDup_fmap_2; [intros v1 v2; congruence|].
  eapply sublist_NoDup; [|apply sublist_take].
  rewrite rank_Permutation. apply eligible_NoDup.
Qed.

Lemma top_length G t B :
  length (take B (rank score G t (eligible G t))) = B `min` length (eligible G t).
Proof. by rewrite length_take, rank_Permutation. Qed.

(** What [attack] computes from a [Ready] session. *)
Lemma attack_computes s t B :
  state s = Ready → t < num_nodes (graph s) →
  let top := take B (rank score (graph s) t (eligible (graph s) t)) in
  attack score s t B =
    OK (mkSession (input s)
          (mkGraph (num_nodes (graph s))
             (toggled (edges (graph s)) ((λ v, (t, v)) <$> top)))
          (mkLedger B (length top)) Done ((λ v, (t, v)) <$> top)).
Proof.
  intros Hs Ht top. unfold attack. rewrite Hs.
  destruct (Nat.ltb_spec t (num_nodes (graph s))); [|lia].
  fold top. rewrite commit_all; simpl; auto.
  - apply top_in_range.
  - unfold top. rewrite top_length. lia.
Qed.

End Loop.

(** C9. From a [Ready] session and for a target node of the graph, the
    attack with budget [B] finishes without an error in state [Done]; the
    committed flips are pairwise distinct edges at the target, as many as the
    ledger has spent, and the working graph differs from the graph before
    the attack in exactly these edges. If [B] is at most the number of
    eligible candidates, [B] flips are committed and [spent = B]; if [B]
    exceeds it, every eligible candidate is committed and [spent < B]. *)
Theorem targeted_attack_budget
    (score : Graph → nat → nat → Q) (s : AttackSession) (t B : nat) :
  state s = Ready →
  t < num_nodes (graph s) →
  ∃ s', attack score s t B = OK s'
    ∧ state s' = Done
    ∧ input s' = input s
    ∧ length (perturbations s') = spent (ledger s')
    ∧ NoDup (perturbations s')
    ∧ (∀ e, e ∈ perturbations s' → e.1 = t ∧ e.2 ∈ eligible (graph s) t)
    ∧ (∀ e, e ∈ edges (graph s') ↔ (e ∈ edges (graph s) ↔ e ∉ perturbations s'))
    ∧ (B ≤ length (eligible (graph s) t) → spent (ledger s') = B)
    ∧ (length (eligible (graph s) t) < B →
       spent (ledger s') = length (eligible (graph s) t)
       ∧ spent (ledger s') < B
       ∧ perturbations s' ≡ₚ (λ v, (t, v)) <$> eligible (graph s) t).
Proof.
  intros Hs Ht. eexists. split; [by apply attack_computes|]. simpl.
  pose proof (top_length score (graph s) t B) as Hlen.
  split; [done|]. split; [done|]. split; [by rewrite length_fmap|].
  split; [apply top_NoDup|].
  split.
  { intros e (v & -> & Hv)%list_elem_of_fmap. simpl. split; [done|].
    apply subseteq_take in Hv. by rewrite rank_Permutation in Hv. }
  split.
  { intros e. apply toggled_spec, top_NoDup. }
  split; [lia|].
  intros Hlt. split; [lia|]. split; [lia|].
  rewrite take_ge by (rewrite rank_Permutation; lia).
  by rewrite rank_Permutation.
Qed.

Lemma targeted_attack_budget_witness :
  ∃ s', attack Examples.by_id (reset (new_session Examples.P4)) 1 2 = OK s'
    ∧ spent (ledger s') = 2
    ∧ perturbations s' = [(1, 3); (1, 2)].
Proof.
  destruct (targeted_attack_budget Examples.by_id (reset (new_session Examples.P4)) 1 2)
    as (s' & Hrun & _); [reflexivity | simpl; lia |].
  exists s'. split; [exact Hrun|].
  vm_compute in Hrun. inversion Hrun. split; reflexivity.
Defined.
End TargetedFacts.

(** * Properties of the CKA diagnostic *)

Module CKAFacts.

Import CKA.

(** ** The denominators of [_HSIC] *)

Lemma kernel_square feat :
  ∃ K, kernel feat = OK K ∧ square (shape0 feat) K.
Proof.
  unfold kernel, matmul. simpl. rewrite Nat.eqb_refl. simpl.
  eexists. split; [reflexivity|]. by split.
Qed.

Lemma HSIC_defined n K L :
  square n K → square n L → 4 ≤ n → ∃ v, _HSIC K L = OK v.
Proof.
  destruct K as [k0 k1 eK], L as [l0 l1 eL]. intros [HK0 HK1] [HL0 HL1] Hn.
  simpl in *. subst. unfold _HSIC, matmul, div_int, int_truediv, item. simpl.
  repeat (first [ rewrite Nat.eqb_refl
                | match goal with
                  | |- context [(?x =? 0)%Z] =>
                      destruct (Z.eqb_spec x 0) as [Hz|_]; [exfalso; nia|]
                  end ];
          simpl).
  by eexists.
Qed.

Lemma HSIC_small n K L :
  square n K → square n L → n < 4 →
  _HSIC K L = Err (if decide (n = 1 ∨ n = 2) then NotFinite else ZeroDivisionError).
Proof.
  destruct K as [k0 k1 eK], L as [l0 l1 eL]. intros [HK0 HK1] [HL0 HL1] Hn.
  simpl in *. subst.
  destruct n as [|[|[|[|n]]]]; [reflexivity..|lia].
Qed.

(** C10. With [N] the side of the square kernel matrices, [_HSIC] divides by
    [(N-1)*(N-2)], by [N-2] and by [N*(N-3)]. For [N >= 4] none of them is
    zero and [_HSIC] returns a number. For [N <= 3] one of them is zero and
    [_HSIC] divides by it: a tensor for [N] in 1, 2 and a Python number for
    [N] in 0, 3; so [compare] divides by zero as soon as the first logged
    feature of model 1 has fewer than 4 rows. *)
Theorem HSIC_denominators
    (K L feat1 : Tensor) (model1_rest model2_features : list Tensor) :
  let n := shape0 K in
  let N := Z.of_nat n in
  square n K → square n L →
  (4 ≤ n →
     ((N - 1) * (N - 2) ≠ 0 ∧ N - 2 ≠ 0 ∧ N * (N - 3) ≠ 0)%Z
     ∧ ∃ v, _HSIC K L = OK v)
  ∧ (n < 4 →
     ((N - 1) * (N - 2) = 0 ∨ N - 2 = 0 ∨ N * (N - 3) = 0)%Z
     ∧ _HSIC K L = Err (if decide (n = 1 ∨ n = 2) then NotFinite else ZeroDivisionError))
  ∧ (shape0 feat1 < 4 →
     compare (feat1 :: model1_rest) model2_features
     = Err (if decide (shape0 feat1 = 1 ∨ shape0 feat1 = 2)
            then NotFinite else ZeroDivisionError)).
Proof.
  intros n N HK HL. split; [|split].
  - intros Hn. split; [subst N; nia|]. by apply (HSIC_defined n).
  - intros Hn. split; [subst N; nia|]. by apply HSIC_small.
  - intros Hn. destruct (kernel_square feat1) as (K1 & HK1 & Hsq).
    simpl. rewrite HK1. simpl. by rewrite (HSIC_small _ _ _ Hsq Hsq Hn).
Qed.

Lemma HSIC_denominators_witness :
  (∃ v, _HSIC (mkTensor 4 4 (λ i j, 1%Q)) (mkTensor 4 4 (λ i j, 1%Q)) = OK v)
  ∧ compare [Examples.feat 3] [] = Err ZeroDivisionError.
Proof.
  pose proof (HSIC_denominators (mkTensor 4 4 (λ i j, 1%Q)) (mkTensor 4 4 (λ i j, 1%Q))
                (Examples.feat 3) [] [] ltac:(by split) ltac:(by split))
    as (H4 & _ & H3).
  split.
  - apply H4. simpl. lia.
  - apply H3. simpl. lia.
Defined.
(** ** The kernel matrices and the loops of [compare] *)

Lemma sum_upto_ext n (f h : nat → Q) :
  (∀ k, (f k == h k)%Q) → (sum_upto n f == sum_upto n h)%Q.
Proof.
  intros Hfh. induction n as [|n IH]; simpl; [reflexivity|].
  by rewrite IH, Hfh.
Qed.

(** X10. The kernel matrix of a feature with [n] rows is an [n x n] matrix
    with a zero diagonal, and it is symmetric. *)
Theorem kernel_zero_diagonal_symmetric (feat : Tensor) :
  ∃ K, kernel feat = OK K
       ∧ shape0 K = shape0 feat
       ∧ shape1 K = shape0 feat
       ∧ (∀ i, entry K i i = 0%Q)
       ∧ (∀ i j, (entry K i j == entry K j i)%Q).
Proof.
  unfold kernel, matmul. simpl. rewrite Nat.eqb_refl. simpl.
  eexists. split; [reflexivity|]. simpl.
  split; [done|]. split; [done|]. split.
  - intros i. by rewrite Nat.eqb_refl.
  - intros i j. rewrite (Nat.eqb_sym j i).
    destruct (i =? j); [reflexivity|].
    apply sum_upto_ext. intros k. apply Qmult_comm.
Qed.

Lemma compare_inner_uniform n K model2_features :
  4 ≤ n → square n K →
  Forall (λ f, shape0 f = n) model2_features →
  ∃ row, compare_inner K model2_features = OK row
         ∧ length row = length model2_features.
Proof.
  intros Hn HK. induction 1 as [|feat2 rest Hfeat _ IH].
  - by exists [].
  - destruct IH as (row & Hrow & Hlen).
    destruct (kernel_square feat2) as (L & HL & HsqL). rewrite Hfeat in HsqL.
    destruct (HSIC_defined n K L HK HsqL Hn) as (h1 & Hh1).
    destruct (HSIC_defined n L L HsqL HsqL Hn) as (h2 & Hh2).
    exists ((h1, h2) :: row). simpl. rewrite HL. simpl.
    destruct HK as [-> ->], HsqL as [-> ->]. rewrite Nat.eqb_refl. simpl.
    rewrite Hh1. simpl. rewrite Hh2. simpl. rewrite Hrow. simpl.
    split; [done|]. by rewrite Hlen.
Qed.

(** X11. When every logged feature of both models has the same number
    [n >= 4] of rows, the loops of [compare] run to their end without an
    error and fill one row per feature of model 1 with one pair of entries
    per feature of model 2. *)
Theorem compare_uniform_rows
    (n : nat) (model1_features model2_features : list Tensor) :
  4 ≤ n →
  Forall (λ f, shape0 f = n) model1_features →
  Forall (λ f, shape0 f = n) model2_features →
  ∃ rows, compare model1_features model2_features = OK rows
          ∧ length rows = length model1_features
          ∧ Forall (λ r, length r.2 = length model2_features) rows.
Proof.
  intros Hn H1 H2. induction H1 as [|feat1 rest Hfeat _ IH].
  - by exists [].
  - destruct IH as (rows & Hrows & Hlen & Hall).
    destruct (kernel_square feat1) as (K & HK & HsqK). rewrite Hfeat in HsqK.
    destruct (HSIC_defined n K K HsqK HsqK Hn) as (h0 & Hh0).
    destruct (compare_inner_uniform n K model2_features Hn HsqK H2) as (row & Hrow & Hlrow).
    exists ((h0, row) :: rows). simpl. rewrite HK. simpl. rewrite Hh0. simpl.
    rewrite Hrow. simpl. rewrite Hrows. simpl.
    split; [done|]. split; [by rewrite Hlen|]. by constructor.
Qed.

Lemma compare_uniform_rows_witness :
  ∃ rows, compare [Examples.feat 5; Examples.feat 5] [Examples.feat 5] = OK rows
          ∧ length rows = 2
          ∧ Forall (λ r, length r.2 = 1) rows.
Proof.
  apply (compare_uniform_rows 5 [Examples.feat 5; Examples.feat 5] [Examples.feat 5]).
  - lia.
  - by repeat constructor.
  - by repeat constructor.
Defined.

(** X12. [compare] checks the shapes of the two kernels only after it has
    computed [_HSIC(K, K)]: with at least 4 rows in the first feature of
    model 1 and a different number of rows in the first feature of model 2,
    the assertion on the shapes fails. *)
Theorem compare_row_mismatch
    (feat1 feat2 : Tensor) (model1_rest model2_rest : list Tensor) :
  4 ≤ shape0 feat1 →
  shape0 feat2 ≠ shape0 feat1 →
  compare (feat1 :: model1_rest) (feat2 :: model2_rest) = Err AssertionError.
Proof.
  intros Hn Hne.
  destruct (kernel_square feat1) as (K & HK & HsqK).
  destruct (kernel_square feat2) as (L & HL & HsqL).
  destruct (HSIC_defined _ K K HsqK HsqK Hn) as (h0 & Hh0).
  simpl. rewrite HK. simpl. rewrite Hh0. simpl. rewrite HL. simpl.
  destruct HsqK as [-> ->], HsqL as [-> ->].
  destruct (Nat.eqb_spec (shape0 feat1) (shape0 feat2)); [congruence|]. reflexivity.
Qed.

Lemma compare_row_mismatch_witness :
  compare [Examples.feat 5] [Examples.feat 4] = Err AssertionError.
Proof.
  apply (compare_row_mismatch (Examples.feat 5) (Examples.feat 4) [] []); simpl; lia.
Defined.

(** ** The [CKA] object *)

Lemma dict_get_set {V} k (v : V) d : dict_get k (dict_set k v d) = Some v.
Proof.
  induction d as [|[k' v'] d IH]; simpl.
  - by rewrite String.eqb_refl.
  - destruct (String.eqb k k') eqn:E; simpl.
    + by rewrite String.eqb_refl.
    + by rewrite E.
Qed.

Lemma dict_get_set_ne {V} k k0 (v : V) d :
  k0 ≠ k → dict_get k0 (dict_set k v d) = dict_get k0 d.
Proof.
  intros Hne. induction d as [|[k' v'] d IH]; simpl.
  - destruct (String.eqb_spec k0 k); [done|]. reflexivity.
  - destruct (String.eqb_spec k k') as [->|Hk]; simpl.
    + destruct (String.eqb_spec k0 k'); [done|]. reflexivity.
    + by rewrite IH.
Qed.

Lemma dict_set_keys {V} k (v : V) d :
  (dict_set k v d).*1 = if bool_decide (k ∈ d.*1) then d.*1 else d.*1 ++ [k].
Proof.
  induction d as [|[k' v'] d IH]; cbn [dict_set].
  - rewrite bool_decide_eq_false_2; [done|]. apply not_elem_of_nil.
  - destruct (String.eqb_spec k k') as [->|Hk]; rewrite !fmap_cons; cbn [fst].
    + rewrite bool_decide_eq_true_2; [done|]. apply list_elem_of_here.
    + rewrite IH. destruct (decide (k ∈ d.*1)) as [Hin|Hin].
      * rewrite !bool_decide_eq_true_2; [done| |done]. by apply list_elem_of_further.
      * rewrite !bool_decide_eq_false_2; [done| |done].
        rewrite elem_of_cons. intros [?|?]; done.
Qed.

(** X13. [_log_layer] looks at the number of dimensions before it looks at
    the model tag: an output that is not 2-D is dropped without an error for
    every tag, also an unknown one; a 2-D output under a tag other than
    [model1] and [model2] raises [RuntimeError]. *)
Theorem log_layer_dispatch
    {T : Type} (ndim : T → nat) (self : Object) (model name : string) (out : T) :
  (ndim out ≠ 2 → _log_layer ndim self model name out = Return self)
  ∧ (ndim out = 2 → model ≠ "model1" → model ≠ "model2" →
     _log_layer ndim self model name out
     = Raise (Raise_RuntimeError "Unknown model name for _log_layer.")).
Proof.
  unfold _log_layer. split.
  - intros Hnd. destruct (Nat.eqb_spec (ndim out) 2); [done|]. reflexivity.
  - intros -> H1 H2. simpl.
    destruct (String.eqb_spec model "model1"); [done|].
    destruct (String.eqb_spec model "model2"); [done|]. reflexivity.
Qed.

Lemma log_layer_dispatch_witness :
  let self := (__init__ GCN SGC None None None None ∅).1.1 in
  _log_layer (T := list nat) length self "model3" "conv1" [3; 4; 5] = Return self
  ∧ _log_layer (T := list nat) length self "model3" "conv1" [3; 4]
    = Raise (Raise_RuntimeError "Unknown model name for _log_layer.").
Proof.
  intros self.
  destruct (log_layer_dispatch (T := list nat) length self "model3" "conv1" [3; 4; 5])
    as [H3 _].
  destruct (log_layer_dispatch (T := list nat) length self "model3" "conv1" [3; 4])
    as [_ H2].
  split; [apply H3; simpl; lia | apply H2; [reflexivity | discriminate | discriminate]].
Defined.

(** X14. A 2-D output logged for [model1] is stored under the layer's name
    in [model1_features]: a lookup of the name gives it back, the other
    entries and [model2_features] are as before, and the names keep their
    order, the name being added at the end only if it was not there (a layer
    that runs again overwrites its entry). The same holds for [model2]. *)
Theorem log_layer_stores
    {T : Type} (ndim : T → nat) (self : Object) (name : string) (out : T) :
  ndim out = 2 →
  (∃ self', _log_layer ndim self "model1" name out = Return self'
     ∧ dict_get name (model1_features self') = Some out
     ∧ (∀ k, k ≠ name →
          dict_get k (model1_features self') = dict_get k (model1_features self))
     ∧ (model1_features self').*1
       = (if bool_decide (name ∈ (model1_features self).*1)
          then (model1_features self).*1 else (model1_features self).*1 ++ [name])
     ∧ model2_features self' = model2_features self)
  ∧ (∃ self', _log_layer ndim self "model2" name out = Return self'
     ∧ dict_get name (model2_features self') = Some out
     ∧ (∀ k, k ≠ name →
          dict_get k (model2_features self') = dict_get k (model2_features self))
     ∧ (model2_features self').*1
       = (if bool_decide (name ∈ (model2_features self).*1)
          then (model2_features self).*1 else (model2_features self).*1 ++ [name])
     ∧ model1_features self' = model1_features self).
Proof.
  intros Hnd. unfold _log_layer. rewrite Hnd. simpl. split.
  - eexists. split; [reflexivity|]. simpl.
    split; [apply dict_get_set|]. split; [intros k Hk; by apply dict_get_set_ne|].
    split; [apply dict_set_keys|done].
  - eexists. split; [reflexivity|]. simpl.
    split; [apply dict_get_set|]. split; [intros k Hk; by apply dict_get_set_ne|].
    split; [apply dict_set_keys|done].
Qed.

Lemma log_layer_stores_witness :
  let self := (__init__ GCN SGC None None None None ∅).1.1 in
  ∃ self', _log_layer (T := list nat) length self "model1" "conv1" [3; 4] = Return self'
           ∧ dict_get "conv1" (model1_features self') = Some [3; 4].
Proof.
  intros self.
  destruct (log_layer_stores (T := list nat) length self "conv1" [3; 4] eq_refl)
    as [(self' & Hrun & Hget & _) _].
  by exists self'.
Defined.

Lemma forward_hooks_register layer hk h layer' :
  forward_hooks (register_forward_hook layer hk h) layer'
  = forward_hooks h layer' ++ (if decide (layer = layer') then [hk] else []).
Proof.
  unfold register_forward_hook, forward_hooks. destruct (decide (layer = layer')) as [->|Hne].
  - by rewrite lookup_insert_eq.
  - rewrite lookup_insert_ne by done. by rewrite app_nil_r.
Qed.

Lemma hooks_of_cons tag layers name layer named layer' :
  hooks_of tag layers ((name, layer) :: named) layer'
  = (if match layers with Some ls => bool_decide (name ∈ ls) | None => true end
     then (if decide (layer = layer') then [(tag, name)] else [])
     else [])
    ++ hooks_of tag layers named layer'.
Proof.
  unfold hooks_of, hooked. destruct layers as [ls|].
  - rewrite filter_cons. cbn [fst]. case_bool_decide as Hin.
    + rewrite decide_True by done. rewrite filter_cons. cbn [snd].
      destruct (decide (layer = layer')); done.
    + by rewrite decide_False by done.
  - rewrite filter_cons. cbn [snd].
    destruct (decide (layer = layer')); done.
Qed.

Lemma insert_hooks_loop_spec tag layers named : ∀ info_Layers h,
  (insert_hooks_loop tag layers named info_Layers h).1
  = info_Layers ++ (hooked layers named).*1
  ∧ ∀ layer,
      forward_hooks (insert_hooks_loop tag layers named info_Layers h).2 layer
      = forward_hooks h layer ++ hooks_of tag layers named layer.
Proof.
  induction named as [|[name layer] named IH]; intros info_Layers h.
  - split; [destruct layers; simpl; by rewrite app_nil_r|].
    intros layer. unfold hooks_of. destruct layers; simpl; by rewrite app_nil_r.
  - destruct layers as [ls|]; cbn [insert_hooks_loop].
    + case_bool_decide as Hin.
      * destruct (IH (info_Layers ++ [name])
                    (register_forward_hook layer (tag, name) h)) as [IH1 IH2].
        split.
        { rewrite IH1. unfold hooked. rewrite filter_cons. cbn [fst].
          rewrite decide_True by done. rewrite fmap_cons. cbn [fst].
          by rewrite <- app_assoc. }
        intros layer'. rewrite IH2, forward_hooks_register, hooks_of_cons.
        rewrite bool_decide_eq_true_2 by done. by rewrite <- app_assoc.
      * destruct (IH info_Layers h) as [IH1 IH2]. split.
        { rewrite IH1. unfold hooked. rewrite filter_cons. cbn [fst].
          by rewrite decide_False by done. }
        intros layer'. rewrite IH2, hooks_of_cons.
        by rewrite bool_decide_eq_false_2 by done.
    + destruct (IH (info_Layers ++ [name])
                  (register_forward_hook layer (tag, name) h)) as [IH1 IH2].
      split.
      { rewrite IH1. unfold hooked. rewrite fmap_cons. cbn [fst].
        by rewrite <- app_assoc. }
      intros layer'. rewrite IH2, forward_hooks_register, hooks_of_cons.
      by rewrite <- app_assoc.
Qed.

Lemma insert_hooks_spec {T} (self : @Object T) (h : hook_store) :
  (_insert_hooks self h).1 =
    mkObject
      (model1 self) (model2 self)
      (model1_info_Name self) (model2_info_Name self)
      (model1_info_Layers self
       ++ (hooked (model1_layers self) (named_modules (model1 self))).*1)
      (model2_info_Layers self
       ++ (hooked (model2_layers self) (named_modules (model2 self))).*1)
      (model1_features self) (model2_features self)
      (model1_layers self) (model2_layers self) (hsic_matrix self)
  ∧ ∀ layer,
      forward_hooks (_insert_hooks self h).2 layer
      = forward_hooks h layer
        ++ hooks_of "model1" (model1_layers self) (named_modules (model1 self)) layer
        ++ hooks_of "model2" (model2_layers self) (named_modules (model2 self)) layer.
Proof.
  unfold _insert_hooks.
  destruct (insert_hooks_loop_spec "model1" (model1_layers self)
              (named_modules (model1 self)) (model1_info_Layers self) h) as [H1 H1'].
  destruct (insert_hooks_loop "model1" _ _ _ h) as [Layers1 h1].
  destruct (insert_hooks_loop_spec "model2" (model2_layers self)
              (named_modules (model2 self)) (model2_info_Layers self) h1) as [H2 H2'].
  destruct (insert_hooks_loop "model2" _ _ _ h1) as [Layers2 h2].
  cbn [fst snd] in *. subst Layers1 Layers2. split; [done|].
  intros layer. by rewrite H2', H1', <- app_assoc.
Qed.

Lemma fmap_fst_filter (P : string → Prop) `{!∀ x, Decision (P x)}
    (named : list (string * loc)) :
  (filter (λ p, P p.1) named).*1 = filter P named.*1.
Proof.
  induction named as [|[name layer] named IH]; [done|].
  rewrite fmap_cons, !filter_cons. cbn [fst].
  destruct (decide (P name)); [rewrite fmap_cons|]; by rewrite IH.
Qed.

(** X15. After construction, the recorded [Layers] of a model are its module
    names in their order, all of them without a list of layers and those in
    the list with one; nothing is logged yet. The hooks are registered on
    the module objects themselves: every module object has the hooks it had,
    then one hook tagged [model1] for each recorded name under which model 1
    has this module, then likewise those tagged [model2] for model 2; a
    module that both models have (the same model given twice, a shared
    layer) so carries the hooks of both tags. *)
Theorem init_hooks_recorded_layers
    {T : Type} (m1 m2 : nn_Module) (name1 name2 : option string)
    (layers1 layers2 : option (list string)) (h : hook_store) :
  let self := (__init__ (T := T) m1 m2 name1 name2 layers1 layers2 h).1.1 in
  let h' := (__init__ (T := T) m1 m2 name1 name2 layers1 layers2 h).1.2 in
  model1_info_Layers self = (hooked layers1 (named_modules m1)).*1
  ∧ model2_info_Layers self = (hooked layers2 (named_modules m2)).*1
  ∧ (∀ layer,
       forward_hooks h' layer
       = forward_hooks h layer
         ++ hooks_of "model1" layers1 (named_modules m1) layer
         ++ hooks_of "model2" layers2 (named_modules m2) layer)
  ∧ model1_features self = []
  ∧ model2_features self = [].
Proof.
  intros self h'. subst self h'. unfold __init__. cbn [fst].
  match goal with |- context [_insert_hooks ?o h] =>
    destruct (insert_hooks_spec o h) as [Hself Hh] end.
  rewrite Hself. cbn [model1_info_Layers model2_info_Layers model1_features
                      model2_features model1_layers model2_layers model1 model2 app snd].
  split; [done|]. split; [done|]. split; [exact Hh|]. split; reflexivity.
Qed.

(** The same model given twice: each of its modules carries both hooks. *)
Example init_same_model_twice :
  let h' := (__init__ (T := list nat) GCN GCN None None None None ∅).1.2 in
  forward_hooks h' 1%positive = [("model1", ""); ("model2", "")]
  ∧ forward_hooks h' 2%positive = [("model1", "conv1"); ("model2", "conv1")]
  ∧ forward_hooks h' 3%positive = [("model1", "conv2"); ("model2", "conv2")].
Proof. vm_compute. done. Qed.

(** X16. A name in [model1_layers] that is no module name of model 1 is
    dropped without a warning: fewer layers are then recorded than the list
    has entries, and every recorded layer is both in the list and a module
    name. *)
Theorem init_drops_unknown_layers
    {T : Type} (m1 m2 : nn_Module) (name1 name2 : option string)
    (ls : list string) (layers2 : option (list string)) (missing : string)
    (h : hook_store) :
  NoDup (named_modules m1).*1 →
  missing ∈ ls →
  missing ∉ (named_modules m1).*1 →
  let self := (__init__ (T := T) m1 m2 name1 name2 (Some ls) layers2 h).1.1 in
  length (model1_info_Layers self) < length ls
  ∧ ∀ name, name ∈ model1_info_Layers self →
      name ∈ ls ∧ name ∈ (named_modules m1).*1.
Proof.
  intros Hnd Hin Hnot self. subst self. unfold __init__. cbn [fst].
  match goal with |- context [_insert_hooks ?o h] =>
    destruct (insert_hooks_spec o h) as [Hself _] end.
  rewrite Hself. cbn [model1_info_Layers model1_layers model1 app hooked].
  pose proof (fmap_fst_filter (λ name, name ∈ ls) (named_modules m1)) as Hsame.
  cbn beta in Hsame. rewrite Hsame. clear Hsame.
  set (sel := filter (λ name, name ∈ ls) (named_modules m1).*1).
  assert (∀ name, name ∈ sel → name ∈ ls ∧ name ∈ (named_modules m1).*1) as Hsel.
  { intros name. unfold sel. by rewrite list_elem_of_filter. }
  split; [|done].
  assert (missing :: sel ⊆+ ls) as Hle.
  { apply NoDup_submseteq.
    - constructor; [intros Hm; by apply Hsel in Hm as [_ ?]|].
      by apply NoDup_filter.
    - intros x [->|Hx]%elem_of_cons; [done|]. by apply Hsel. }
  apply submseteq_length in Hle. simpl in Hle. lia.
Qed.

Lemma init_drops_unknown_layers_witness :
  let self := (__init__ (T := list nat) GCN SGC
                 None None (Some ["conv1"; "conv3"]) None ∅).1.1 in
  length (model1_info_Layers self) < 2.
Proof.
  intros self.
  apply (init_drops_unknown_layers (T := list nat) GCN SGC
           None None ["conv1"; "conv3"] None "conv3" ∅).
  - simpl. apply (bool_decide_unpack _). vm_compute. exact I.
  - apply (bool_decide_unpack _). vm_compute. exact I.
  - simpl. apply (bool_decide_unpack _). vm_compute. exact I.
Defined.

Lemma before_paren_spec s :
  ∃ rest, s = before_paren s +:+ rest
          ∧ (rest = "" ∨ ∃ r, rest = String "("%char r)
          ∧ ¬ In "("%char (String.list_ascii_of_string (before_paren s)).
Proof.
  induction s as [|c s (rest & Hs & Hrest & Hno)]; simpl.
  - exists "". auto.
  - destruct (Ascii.eqb_spec c "("%char) as [->|Hc]; simpl.
    + exists (String "("%char s). split; [done|]. split; [eauto|tauto].
    + exists rest. split.
      { change (String c s = String c (before_paren s +:+ rest)). by f_equal. }
      split; [done|].
      intros [?|?]; [done|tauto].
Qed.

(** X17. Without a given name, a model is named by its [repr] up to the
    first opening bracket: the name has no opening bracket, and the [repr] is
    the name, followed by nothing or by the bracket. A given name is taken as
    it is. *)
Theorem init_model_names
    {T : Type} (m1 m2 : nn_Module) (name1 name2 : option string)
    (layers1 layers2 : option (list string)) (h : hook_store) :
  let self := (__init__ (T := T) m1 m2 name1 name2 layers1 layers2 h).1.1 in
  match name1 with
  | Some name => model1_info_Name self = name
  | None =>
      ∃ rest, repr m1 = model1_info_Name self +:+ rest
              ∧ (rest = "" ∨ ∃ r, rest = String "("%char r)
              ∧ ¬ In "("%char (String.list_ascii_of_string (model1_info_Name self))
  end
  ∧ match name2 with
    | Some name => model2_info_Name self = name
    | None =>
        ∃ rest, repr m2 = model2_info_Name self +:+ rest
                ∧ (rest = "" ∨ ∃ r, rest = String "("%char r)
                ∧ ¬ In "("%char (String.list_ascii_of_string (model2_info_Name self))
    end.
Proof.
  intros self. subst self. unfold __init__. cbn [fst].
  match goal with |- context [_insert_hooks ?o h] =>
    destruct (insert_hooks_spec o h) as [Hself _] end.
  rewrite Hself. simpl.
  split; [destruct name1|destruct name2]; try done; apply before_paren_spec.
Qed.

(** X18. [__init__] does not create [hsic_matrix]: [export] on an object on
    which [compare] has not run raises [AttributeError]. *)
Theorem export_before_compare
    {T : Type} (m1 m2 : nn_Module) (name1 name2 : option string)
    (layers1 layers2 : option (list string)) (h : hook_store) :
  export (__init__ (T := T) m1 m2 name1 name2 layers1 layers2 h).1.1
  = Raise (Raise_AttributeError "hsic_matrix").
Proof.
  unfold __init__. cbn [fst].
  match goal with |- context [_insert_hooks ?o h] =>
    destruct (insert_hooks_spec o h) as [Hself _] end.
  by rewrite Hself.
Qed.

(** ** The value of [_HSIC] *)

Lemma sum_upto_zero n : (sum_upto n (λ _, 0) == 0)%Q.
Proof. induction n as [|n IH]; simpl; [reflexivity|]. rewrite IH. ring. Qed.

Lemma sum_upto_plus n f h :
  (sum_upto n (λ k, f k + h k) == sum_upto n f + sum_upto n h)%Q.
Proof. induction n as [|n IH]; simpl; [ring|]. rewrite IH. ring. Qed.

Lemma sum_upto_scale_l n c f :
  (sum_upto n (λ k, c * f k) == c * sum_upto n f)%Q.
Proof. induction n as [|n IH]; simpl; [ring|]. rewrite IH. ring. Qed.

Lemma sum_upto_scale_r n c f :
  (sum_upto n (λ k, f k * c) == sum_upto n f * c)%Q.
Proof. induction n as [|n IH]; simpl; [ring|]. rewrite IH. ring. Qed.

Lemma sum_upto_swap n m (f : nat → nat → Q) :
  (sum_upto n (λ i, sum_upto m (λ j, f i j))
   == sum_upto m (λ j, sum_upto n (λ i, f i j)))%Q.
Proof.
  induction n as [|n IH]; simpl.
  - by rewrite sum_upto_zero.
  - rewrite IH. by rewrite sum_upto_plus.
Qed.

Lemma HSIC_value n eK eL :
  4 ≤ n →
  ∃ v, _HSIC (mkTensor n n eK) (mkTensor n n eL) = OK v ∧ (v == hsic_value n eK eL)%Q.
Proof.
  intros Hn. unfold _HSIC, matmul, div_int, int_truediv, item, trace, ones, t, mul_scalar.
  cbn [shape0 shape1 entry rbind].
  repeat (first [ rewrite Nat.eqb_refl
                | rewrite Nat.min_id
                | match goal with
                  | |- context [(?x =? 0)%Z] =>
                      destruct (Z.eqb_spec x 0) as [Hz|_]; [exfalso; nia|]
                  end ];
          cbn [shape0 shape1 entry rbind andb]).
  eexists. split; [reflexivity|]. unfold hsic_value. cbv zeta.
  cbn [sum_upto].
  assert (∀ f : nat → nat → Q,
            (sum_upto n (λ k1, sum_upto n (λ k2, 1 * f k2 k1) * 1)
             == sum_upto n (λ i, sum_upto n (λ j, f i j)))%Q) as Htotal.
  { intros f. rewrite sum_upto_swap. apply sum_upto_ext. intros i.
    rewrite Qmult_1_r. apply sum_upto_ext. intros j. apply Qmult_1_l. }
  assert ((sum_upto n
             (λ k, sum_upto n
                     (λ k0, (0 + sum_upto n (λ k1, sum_upto n (λ k2, 1 * eK k2 k1) * 1) * 1)
                            * eL k0 k) * 1)
           == sum_upto n (λ i, sum_upto n (λ j, eK i j))
              * sum_upto n (λ i, sum_upto n (λ j, eL i j)))%Q) as ->.
  { transitivity (sum_upto n (λ k, sum_upto n (λ i, sum_upto n (λ j, eK i j))
                                   * sum_upto n (λ k0, eL k0 k))%Q).
    - apply sum_upto_ext. intros k. rewrite Qmult_1_r, <- sum_upto_scale_l.
      apply sum_upto_ext. intros k0. rewrite (Htotal eK). ring.
    - rewrite sum_upto_scale_l. rewrite (sum_upto_swap n n (λ k k0, eL k0 k)).
      reflexivity. }
  assert ((sum_upto n
             (λ k, sum_upto n (λ k0, sum_upto n (λ k1, 1 * eK k1 k0) * eL k0 k) * 1)
           == sum_upto n (λ j, sum_upto n (λ k, sum_upto n (λ i, eK i k * eL k j))))%Q) as ->.
  { apply sum_upto_ext. intros j. rewrite Qmult_1_r.
    apply sum_upto_ext. intros k. rewrite <- sum_upto_scale_r.
    apply sum_upto_ext. intros i. ring. }
  reflexivity.
Qed.

Lemma hsic_value_sym n eK eL :
  (∀ i j, eK i j == eK j i)%Q → (∀ i j, eL i j == eL j i)%Q →
  (hsic_value n eK eL == hsic_value n eL eK)%Q.
Proof.
  intros HK HL. unfold hsic_value. cbv zeta.
  assert ((sum_upto n (λ i, sum_upto n (λ k, eK i k * eL k i))
           == sum_upto n (λ i, sum_upto n (λ k, eL i k * eK k i)))%Q) as ->.
  { rewrite sum_upto_swap. apply sum_upto_ext. intros i.
    apply sum_upto_ext. intros k. ring. }
  assert ((sum_upto n (λ j, sum_upto n (λ k, sum_upto n (λ i, eK i k * eL k j)))
           == sum_upto n (λ j, sum_upto n (λ k, sum_upto n (λ i, eL i k * eK k j))))%Q) as ->.
  { transitivity (sum_upto n (λ k, sum_upto n (λ j, sum_upto n (λ i, eK i k * eL k j)%Q)));
      [apply sum_upto_swap|].
    transitivity (sum_upto n (λ k, sum_upto n (λ i, sum_upto n (λ j, eK i k * eL k j)%Q))).
    { apply sum_upto_ext. intros k. apply sum_upto_swap. }
    transitivity (sum_upto n (λ i, sum_upto n (λ k, sum_upto n (λ j, eK i k * eL k j)%Q)));
      [apply sum_upto_swap|].
    apply sum_upto_ext. intros a. apply sum_upto_ext. intros b.
    apply sum_upto_ext. intros c. rewrite (HL c b), (HK b a). ring. }
  unfold Qdiv. ring.
Qed.


(** X24. On two [n x n] matrices with [n >= 4], the chain of products in
    [_HSIC] computes the estimate of the reference: the trace of [K L], plus
    the product of the two sums of all entries over [(n-1)(n-2)], minus twice
    the sum of all entries of [K L] over [n-2], all over [n (n-3)]. *)
Theorem HSIC_computes_estimate (n : nat) (K L : Tensor) :
  4 ≤ n → square n K → square n L →
  ∃ v, _HSIC K L = OK v ∧ (v == hsic_value n (entry K) (entry L))%Q.
Proof.
  destruct K as [k0 k1 eK], L as [l0 l1 eL]. intros Hn [HK0 HK1] [HL0 HL1].
  simpl in *. subst. by apply HSIC_value.
Qed.

Lemma HSIC_computes_estimate_witness :
  ∃ v, _HSIC (mkTensor 4 4 (λ i j, 1%Q)) (mkTensor 4 4 (λ i j, 1%Q)) = OK v
       ∧ (v == hsic_value 4 (λ i j, 1%Q) (λ i j, 1%Q))%Q.
Proof.
  apply (HSIC_computes_estimate 4 (mkTensor 4 4 (λ i j, 1%Q)) (mkTensor 4 4 (λ i j, 1%Q)));
    [lia | by split | by split].
Defined.

(** X25. On the kernel matrices of two features with the same number
    [n >= 4] of rows, [_HSIC] gives the same value in both orders of its
    arguments: exchanging the two models transposes the entries that
    [compare] computes across the models. *)
Theorem HSIC_symmetric_on_kernels (n : nat) (feat1 feat2 : Tensor) :
  4 ≤ n → shape0 feat1 = n → shape0 feat2 = n →
  ∃ K L v1 v2,
    kernel feat1 = OK K ∧ kernel feat2 = OK L
    ∧ _HSIC K L = OK v1 ∧ _HSIC L K = OK v2 ∧ (v1 == v2)%Q.
Proof.
  intros Hn H1 H2.
  unfold kernel, matmul. simpl. rewrite !Nat.eqb_refl. simpl. rewrite H1, H2.
  eexists _, _.
  match goal with
  | |- ∃ v1 v2, OK ?K = _ ∧ OK ?L = _ ∧ _ =>
      destruct (HSIC_value n (entry K) (entry L) Hn) as (v1 & Hv1 & Hq1);
      destruct (HSIC_value n (entry L) (entry K) Hn) as (v2 & Hv2 & Hq2)
  end.
  exists v1, v2. split; [reflexivity|]. split; [reflexivity|].
  split; [exact Hv1|]. split; [exact Hv2|].
  rewrite Hq1, Hq2. apply hsic_value_sym; intros i j; simpl;
    rewrite (Nat.eqb_sym j i); destruct (i =? j); try reflexivity;
    apply sum_upto_ext; intros k; apply Qmult_comm.
Qed.

Lemma HSIC_symmetric_on_kernels_witness :
  ∃ K L v1 v2,
    kernel (Examples.feat 4) = OK K ∧ kernel (Examples.feat 4) = OK L
    ∧ _HSIC K L = OK v1 ∧ _HSIC L K = OK v2 ∧ (v1 == v2)%Q.
Proof.
  apply (HSIC_symmetric_on_kernels 4 (Examples.feat 4) (Examples.feat 4));
    [lia | reflexivity | reflexivity].
Defined.

End CKAFacts.

(** * Properties of [TAGConv] *)

Module TAGConvFacts.

Import CKA.
Import TAGConv.

Lemma matmul_has_shape r k c A B :
  has_shape r k A → has_shape k c B →
  ∃ C, matmul A B = OK C ∧ has_shape r c C.
Proof.
  intros [HA0 HA1] [HB0 HB1]. unfold matmul.
  rewrite HA1, HB0, Nat.eqb_refl. eexists. split; [reflexivity|].
  by split.
Qed.

Lemma matmul_mismatch A B :
  shape1 A ≠ shape0 B → matmul A B = Err RuntimeError_shape.
Proof.
  intros Hne. unfold matmul. by destruct (Nat.eqb_spec (shape1 A) (shape0 B)).
Qed.

Lemma cat_has_shape n c xs :
  xs ≠ [] → Forall (has_shape n c) xs →
  ∃ C, cat xs = OK C ∧ has_shape n (length xs * c) C.
Proof.
  intros Hne Hall. induction Hall as [|A xs HA Hall IH]; [done|].
  destruct xs as [|B xs].
  - exists A. split; [done|]. destruct HA. split; simpl; [done|lia].
  - destruct IH as (C & HC & HC0 & HC1); [done|].
    change (cat (A :: B :: xs)) with (rbind (cat (B :: xs)) (λ B', cat2 A B')).
    rewrite HC. simpl. unfold cat2. destruct HA as [HA0 HA1].
    rewrite HA0, HC0, Nat.eqb_refl. eexists. split; [reflexivity|].
    split; simpl; [done|]. simpl in HC1. lia.
Qed.

Lemma linear_has_shape self n xs :
  wf_conv self → has_shape n (in_channels self * (K self + 1)) xs →
  ∃ y, linear (lin self) xs = OK y ∧ has_shape n (out_channels self) y.
Proof.
  intros (HW0 & HW1 & Hb) Hxs. unfold linear.
  destruct (matmul_has_shape n _ (out_channels self) xs (t (weight (lin self))) Hxs)
    as (y & Hy & Hy0 & Hy1); [by split|].
  rewrite Hy. simpl. destruct (bias (lin self)) as [b|].
  - rewrite Hb, Hy1, Nat.eqb_refl. eexists. split; [reflexivity|]. by split.
  - exists y. by split.
Qed.

Section Dense.

Variable is_edge_index : Adj → bool.
Variable gcn_norm :
  Adj → option (list Q) → nat → bool → result (Adj * option (list Q)).
Variable dense_gcn_norm : Adj → bool → result Adj.
Variable spmm : Tensor → Adj → option (list Q) → result Tensor.

Lemma propagate_dense n c A w steps : ∀ x xs,
  has_shape n n A → has_shape n c x → Forall (has_shape n c) xs →
  ∃ ys, propagate spmm steps false (DenseT A) w x xs = OK ys
        ∧ Forall (has_shape n c) ys
        ∧ length ys = length xs + steps.
Proof.
  induction steps as [|steps IH]; intros x xs HA Hx Hxs; simpl.
  - exists xs. split; [done|]. split; [done|lia].
  - destruct (matmul_has_shape n n c A x HA Hx) as (x' & Hx' & Hsx').
    rewrite Hx'. simpl.
    destruct (IH x' (xs ++ [x']) HA Hsx') as (ys & Hys & Hall & Hlen).
    { apply Forall_app. split; [done|]. by constructor. }
    exists ys. split; [done|]. split; [done|].
    rewrite Hlen, length_app. simpl. lia.
Qed.

(** What [forward] does with a dense adjacency matrix [A] once the
    normalisation is through: [A'] is [A] itself or its normalisation. *)
Lemma forward_dense self x A A' w :
  is_edge_index (DenseT A) = false →
  (if normalize self
   then dense_gcn_norm (DenseT A) (add_self_loops self) = OK (DenseT A')
   else A' = A) →
  forward is_edge_index gcn_norm dense_gcn_norm spmm self x (DenseT A) w =
    rbind (propagate spmm (K self) false (DenseT A') w x [x])
      (λ xs, rbind (cat xs) (λ xs, linear (lin self) xs)).
Proof.
  intros Hdense Hnorm. unfold forward. rewrite Hdense.
  destruct (normalize self); [by rewrite Hnorm|by subst].
Qed.

End Dense.

(** X19. On a dense [n x n] adjacency matrix and features with [n] rows and
    [in_channels] columns, [forward] returns a tensor with [n] rows and
    [out_channels] columns, whatever [K] is: the concatenation of the [K+1]
    propagation steps is as wide as the linear map expects. With
    [normalize], this needs the normalisation to return an [n x n] matrix. *)
Theorem forward_dense_shape
    (is_edge_index : Adj → bool)
    (gcn_norm : Adj → option (list Q) → nat → bool → result (Adj * option (list Q)))
    (dense_gcn_norm : Adj → bool → result Adj)
    (spmm : Tensor → Adj → option (list Q) → result Tensor)
    (self : TAGConv) (x A A' : Tensor) (w : option (list Q)) (n : nat) :
  wf_conv self →
  is_edge_index (DenseT A) = false →
  (if normalize self
   then dense_gcn_norm (DenseT A) (add_self_loops self) = OK (DenseT A')
   else A' = A) →
  has_shape n n A' →
  has_shape n (in_channels self) x →
  ∃ y, forward is_edge_index gcn_norm dense_gcn_norm spmm self x (DenseT A) w = OK y
       ∧ has_shape n (out_channels self) y.
Proof.
  intros Hwf Hdense Hnorm HA Hx.
  rewrite (forward_dense _ _ _ _ _ _ _ A' _ Hdense Hnorm).
  destruct (propagate_dense spmm n (in_channels self) A' w (K self) x [x] HA Hx)
    as (xs & Hxs & Hall & Hlen); [by constructor|].
  rewrite Hxs. simpl.
  destruct (cat_has_shape n (in_channels self) xs) as (C & HC & HsC); [|done|].
  { intros ->. simpl in Hlen. lia. }
  rewrite HC. simpl. apply linear_has_shape; [done|].
  rewrite Hlen in HsC. simpl in HsC.
  by replace (in_channels self * (K self + 1)) with ((1 + K self) * in_channels self) by lia.
Qed.

Lemma forward_dense_shape_witness :
  ∃ y, forward Examples.by_constructor Examples.no_norm Examples.no_dense_norm
         Examples.no_spmm Examples.conv
         (mkTensor 3 2 (λ i j, inject_Z (Z.of_nat (i + j))))
         (DenseT (mkTensor 3 3 (λ i j, if i =? j then 0%Q else 1%Q))) None = OK y
       ∧ has_shape 3 1 y.
Proof.
  apply (forward_dense_shape Examples.by_constructor Examples.no_norm
           Examples.no_dense_norm Examples.no_spmm Examples.conv _ _
           (mkTensor 3 3 (λ i j, if i =? j then 0%Q else 1%Q)) None 3);
    try reflexivity; repeat split.
Defined.

(** X20. Features whose width is not [in_channels] are refused, but only by
    the linear map at the end: on a dense [n x n] adjacency matrix all [K]
    propagation steps and the concatenation go through before [forward]
    raises the shape error. *)
Theorem forward_wrong_width
    (is_edge_index : Adj → bool)
    (gcn_norm : Adj → option (list Q) → nat → bool → result (Adj * option (list Q)))
    (dense_gcn_norm : Adj → bool → result Adj)
    (spmm : Tensor → Adj → option (list Q) → result Tensor)
    (self : TAGConv) (x A A' : Tensor) (w : option (list Q)) (n c : nat) :
  wf_conv self →
  is_edge_index (DenseT A) = false →
  (if normalize self
   then dense_gcn_norm (DenseT A) (add_self_loops self) = OK (DenseT A')
   else A' = A) →
  has_shape n n A' →
  has_shape n c x →
  c ≠ in_channels self →
  (∃ xs, propagate spmm (K self) false (DenseT A') w x [x] = OK xs
         ∧ length xs = K self + 1
         ∧ ∃ C, cat xs = OK C ∧ has_shape n ((K self + 1) * c) C)
  ∧ forward is_edge_index gcn_norm dense_gcn_norm spmm self x (DenseT A) w
    = Err RuntimeError_shape.
Proof.
  intros (HW0 & HW1 & Hb) Hdense Hnorm HA Hx Hc.
  rewrite (forward_dense _ _ _ _ _ _ _ A' _ Hdense Hnorm).
  destruct (propagate_dense spmm n c A' w (K self) x [x] HA Hx)
    as (xs & Hxs & Hall & Hlen); [by constructor|].
  simpl in Hlen.
  destruct (cat_has_shape n c xs) as (C & HC & HsC); [|done|].
  { intros ->. simpl in Hlen. lia. }
  rewrite Hlen in HsC.
  replace (S (K self)) with (K self + 1) in * by lia.
  split.
  - exists xs. split; [done|]. split; [done|]. by exists C.
  - rewrite Hxs. simpl. rewrite HC. simpl. unfold linear.
    rewrite matmul_mismatch; [done|]. simpl. destruct HsC as [_ ->]. rewrite HW1. nia.
Qed.

Lemma forward_wrong_width_witness :
  forward Examples.by_constructor Examples.no_norm Examples.no_dense_norm
    Examples.no_spmm Examples.conv
    (mkTensor 3 5 (λ i j, inject_Z (Z.of_nat (i + j))))
    (DenseT (mkTensor 3 3 (λ i j, if i =? j then 0%Q else 1%Q))) None
  = Err RuntimeError_shape.
Proof.
  apply (forward_wrong_width Examples.by_constructor Examples.no_norm
           Examples.no_dense_norm Examples.no_spmm Examples.conv _ _
           (mkTensor 3 3 (λ i j, if i =? j then 0%Q else 1%Q)) None 3 5);
    try reflexivity; repeat split; simpl; lia.
Defined.

(** X21. With [K = 0] and without normalisation the layer is its linear map:
    [edge_index] and [edge_weight] are not used, so that on features with
    [in_channels] columns [forward] returns what the linear map returns, a
    tensor with [out_channels] columns, for every [edge_index], also one that
    does not fit the features. *)
Theorem forward_K0_is_linear
    (is_edge_index : Adj → bool)
    (gcn_norm : Adj → option (list Q) → nat → bool → result (Adj * option (list Q)))
    (dense_gcn_norm : Adj → bool → result Adj)
    (spmm : Tensor → Adj → option (list Q) → result Tensor)
    (self : TAGConv) (x : Tensor) (edge_index : Adj) (edge_weight : option (list Q))
    (n : nat) :
  wf_conv self →
  K self = 0 →
  normalize self = false →
  has_shape n (in_channels self) x →
  ∃ y, forward is_edge_index gcn_norm dense_gcn_norm spmm self x edge_index edge_weight
       = OK y
       ∧ linear (lin self) x = OK y
       ∧ has_shape n (out_channels self) y.
Proof.
  intros Hwf HK Hn Hx.
  destruct (linear_has_shape self n x Hwf) as (y & Hy & Hsy).
  { rewrite HK. by rewrite Nat.mul_1_r. }
  exists y. split; [|by split].
  unfold forward. rewrite HK, Hn. simpl. exact Hy.
Qed.

Lemma forward_K0_is_linear_witness :
  ∃ y, forward Examples.by_constructor Examples.no_norm Examples.no_dense_norm
         Examples.no_spmm Examples.conv0
         (mkTensor 3 2 (λ i j, inject_Z (Z.of_nat (i + j))))
         (DenseT (mkTensor 7 9 (λ i j, 1%Q))) None = OK y
       ∧ linear (lin Examples.conv0) (mkTensor 3 2 (λ i j, inject_Z (Z.of_nat (i + j))))
         = OK y
       ∧ has_shape 3 1 y.
Proof.
  apply (forward_K0_is_linear Examples.by_constructor Examples.no_norm
           Examples.no_dense_norm Examples.no_spmm Examples.conv0); try reflexivity;
    repeat split.
Defined.

(** X22. With [K >= 1] and without normalisation, a dense adjacency matrix
    whose number of columns is not the number of rows of the features makes
    the first propagation step raise the shape error. *)
Theorem forward_adjacency_mismatch
    (is_edge_index : Adj → bool)
    (gcn_norm : Adj → option (list Q) → nat → bool → result (Adj * option (list Q)))
    (dense_gcn_norm : Adj → bool → result Adj)
    (spmm : Tensor → Adj → option (list Q) → result Tensor)
    (self : TAGConv) (x A : Tensor) (w : option (list Q)) :
  0 < K self →
  normalize self = false →
  is_edge_index (DenseT A) = false →
  shape1 A ≠ shape0 x →
  forward is_edge_index gcn_norm dense_gcn_norm spmm self x (DenseT A) w
  = Err RuntimeError_shape.
Proof.
  intros HK Hn Hdense Hne.
  rewrite (forward_dense _ _ _ _ _ _ _ A _ Hdense); [|by rewrite Hn].
  destruct (K self) as [|k]; [lia|]. simpl.
  by rewrite matmul_mismatch.
Qed.

Lemma forward_adjacency_mismatch_witness :
  forward Examples.by_constructor Examples.no_norm Examples.no_dense_norm
    Examples.no_spmm Examples.conv
    (mkTensor 3 2 (λ i j, inject_Z (Z.of_nat (i + j))))
    (DenseT (mkTensor 4 4 (λ i j, 1%Q))) None
  = Err RuntimeError_shape.
Proof.
  apply (forward_adjacency_mismatch Examples.by_constructor Examples.no_norm
           Examples.no_dense_norm Examples.no_spmm Examples.conv); try reflexivity;
    simpl; lia.
Defined.

End TAGConvFacts.

(** * Properties of the marker line *)

Module ScriptsFacts.

Import Scripts.

Lemma str_mul_replicate k c n :
  str_mul (replicate k c) n = replicate (k * Z.to_nat n) c.
Proof.
  unfold str_mul. induction (Z.to_nat n) as [|m IH]; simpl.
  - by rewrite Nat.mul_0_r.
  - rewrite IH, <- replicate_add. f_equal. lia.
Qed.

Lemma marker_line_replicate target_label num_classes width :
  marker_line target_label num_classes width =
    replicate (Z.to_nat target_label * Z.to_nat width) hyphen
    ++ [hyphen; hyphen; hyphen; hyphen; hand]
    ++ replicate (Z.to_nat (Z.max (num_classes - target_label - 1) 0) * Z.to_nat width)
         hyphen.
Proof.
  unfold marker_line.
  change [hyphen] with (replicate 1 hyphen).
  rewrite !str_mul_replicate. by rewrite !Nat.mul_1_l.
Qed.

(** X23. With the script's width of 5 and a label among the classes, the
    marker line has 5 characters per class, and its only character that is
    no hyphen is the hand, in the last column of the label's cell. *)
Theorem marker_line_points_at_label (target_label num_classes : Z) :
  (0 ≤ target_label < num_classes)%Z →
  length (marker_line target_label num_classes 5) = Z.to_nat (5 * num_classes)
  ∧ ∀ i c, marker_line target_label num_classes 5 !! i = Some c →
           if decide (i = Z.to_nat (5 * target_label + 4)) then c = hand else c = hyphen.
Proof.
  intros Hl. rewrite marker_line_replicate.
  set (p := Z.to_nat target_label * Z.to_nat 5).
  set (q := Z.to_nat (Z.max (num_classes - target_label - 1) 0) * Z.to_nat 5).
  assert (Z.to_nat (5 * target_label + 4) = p + 4) as -> by (unfold p; lia).
  split.
  - rewrite !length_app, !length_replicate. simpl. unfold p, q. lia.
  - intros i c Hi.
    apply lookup_app_Some in Hi as [Hi|[Hp Hi]].
    + apply lookup_replicate in Hi as [-> Hlt]. rewrite decide_False by lia. done.
    + rewrite length_replicate in Hp, Hi.
      apply lookup_app_Some in Hi as [Hi|[Hp' Hi]].
      * destruct (i - p) as [|[|[|[|[|k]]]]] eqn:E; simpl in Hi; inversion Hi; subst c;
          first [ rewrite decide_False by lia; done | rewrite decide_True by lia; done ].
      * simpl in Hp', Hi. apply lookup_replicate in Hi as [-> Hlt].
        rewrite decide_False by lia. done.
Qed.

Lemma marker_line_points_at_label_witness :
  length (marker_line 2 7 5) = 35 ∧ marker_line 2 7 5 !! 14 = Some hand.
Proof.
  destruct (marker_line_points_at_label 2 7 ltac:(lia)) as [Hlen Hat].
  split; [exact Hlen|]. reflexivity.
Defined.

End ScriptsFacts.
